(** * storage-cleanup: the interactive navigator's scan coordinator,
      directory cache, viewport and persistence layer

    A shallow embedding of [src/ui/Navigator.tsx] (the scan coordinator,
    the deletion flow, the key handler and the effects), [src/persist.ts],
    [src/index.tsx] and the parts of [src/utils.ts] and [src/scanners.ts]
    they rely on.

    Conventions of the embedding.
    - JavaScript numbers that hold counters, indices, sizes in KB and
      timestamps are integers far below 2^53; they are modelled by [Z]
      (array positions by [nat]).
    - The React state of the [Navigator] component, its [scanSeqRef] and
      the cache file on disk form one record, [Nav].  A state setter is
      applied at the point where the source calls it, and setters take
      effect in the order in which they are called.
    - An [async] function is cut at its [await]s.  What the function does
      between two suspensions is a Rocq function on [Nav]; the values an
      [await] receives from the outside world (a directory listing, a
      size reported by [du], the clock, a rejection) are the arguments of
      the event that resumes it.  Any interleaving of the resumptions of
      all scans in flight is a list of events.
    - A handler reads [cache] and [currentPath] through the bindings of
      the render that created it.  [triggerScan] and [confirmDelete] take
      these bindings as the arguments [seen] and [cp], so what is proved
      of them holds for any render.  A call of [triggerScan] is an event
      and gets the state in which it is made; a removal in flight keeps,
      in the table [removals], the bindings of the render that took the
      confirm key, and its completion uses those.
    - An event is followed by a render, and the render by the clamp
      effect when the length of the navigable list is not the one of the
      render before: [step] is the handler of the event, [handle],
      followed by [afterRender]. *)

From stdpp Require Import gmap strings list fin_maps sorting pretty.
From Stdlib Require Import ZArith Ascii.

Local Open Scope string_scope.
Local Open Scope Z_scope.

(** ** Data model *)

(** [src/utils.ts]: [type SizeEntry = { kb: number; path: string }]. *)
Record SizeEntry := { kb : Z; path : string }.

(** [Navigator.tsx], line 10. *)
Inductive DirStatus := unscanned | scanning | scanned.

(** [Navigator.tsx], lines 12-20.  Optional fields are [option]s. *)
Record DirCacheEntry := {
  status : DirStatus;
  entry_path : string;
  alphaDirs : list string;
  dirs : option (list SizeEntry);
  files : option (list SizeEntry);
  lastScan : option Z;
  msg : option string
}.

(** [scanners.ts]: [type Progress = { phase; processed; total }]. *)
Record Progress := { phase : string; processed : Z; total : Z }.

Definition TOP_N : nat := 30.
Definition CONCURRENCY : nat := 6.

#[global] Instance DirStatus_eq_dec : EqDecision DirStatus.
Proof. solve_decision. Defined.

#[global] Instance SizeEntry_eq_dec : EqDecision SizeEntry.
Proof. solve_decision. Defined.

Definition is_scanning (s : DirStatus) : bool :=
  match s with scanning => true | _ => false end.

Definition is_scanned (s : DirStatus) : bool :=
  match s with scanned => true | _ => false end.

(** Field updates written the way the source assigns them. *)
Definition set_status_msg (s : DirStatus) (m : option string)
    (ent : DirCacheEntry) : DirCacheEntry :=
  {| status := s; entry_path := entry_path ent; alphaDirs := alphaDirs ent;
     dirs := dirs ent; files := files ent; lastScan := lastScan ent;
     msg := m |}.

Definition set_scan_result (ds : list SizeEntry) (now : Z)
    (ent : DirCacheEntry) : DirCacheEntry :=
  {| status := scanned; entry_path := entry_path ent;
     alphaDirs := alphaDirs ent; dirs := Some ds; files := Some [];
     lastScan := Some now; msg := None |}.

Definition set_children (alpha : list string) (ds : option (list SizeEntry))
    (ent : DirCacheEntry) : DirCacheEntry :=
  {| status := status ent; entry_path := entry_path ent; alphaDirs := alpha;
     dirs := ds; files := files ent; lastScan := lastScan ent;
     msg := msg ent |}.

(** ** [Array.prototype.sort((a, b) => b.kb - a.kb)]

    The sort of the language is stable, so its result is the unique
    stable arrangement by descending [kb]; a stable insertion sort
    computes it. *)

Fixpoint insert_desc (x : SizeEntry) (l : list SizeEntry) : list SizeEntry :=
  match l with
  | [] => [x]
  | y :: l' => if kb y <=? kb x then x :: l else y :: insert_desc x l'
  end.

Definition sort_desc (l : list SizeEntry) : list SizeEntry :=
  foldr insert_desc [] l.

(** Descending order by size. *)
Definition kb_ge (a b : SizeEntry) : Prop := kb b <= kb a.

Definition sorted_desc (l : list SizeEntry) : Prop := Sorted kb_ge l.

(** ** [path.dirname] (POSIX flavour of Node's [path] module) *)

Definition is_slash (c : ascii) : bool := Ascii.eqb c "/"%char.

(** The loop [for (i = path.length - 1; i >= 1; --i)], fed with the
    characters at positions [i, i-1, ..., 1]. *)
Fixpoint dirname_scan (rev_tail : list ascii) (i : nat) (matchedSlash : bool)
    : option nat :=
  match rev_tail with
  | [] => None
  | c :: r =>
      if is_slash c
      then (if matchedSlash then dirname_scan r (pred i) true else Some i)
      else dirname_scan r (pred i) false
  end.

Definition dirname (p : string) : string :=
  let cs := String.list_ascii_of_string p in
  match cs with
  | [] => "."
  | c0 :: tl =>
      let hasRoot := is_slash c0 in
      match dirname_scan (rev tl) (length tl) true with
      | None => if hasRoot then "/" else "."
      | Some e =>
          if hasRoot && Nat.eqb e 1 then "//"
          else String.string_of_list_ascii (take e cs)
      end
  end.

(** ** Pure helpers of the navigator *)

(** [getNavigableList], lines 99-105.  Only the paths of the rows matter
    to the navigator ([typeof v === 'string' ? v : v.path]). *)
Definition getNavigableList (entry : option DirCacheEntry) : list string :=
  match entry with
  | None => []
  | Some e =>
      match dirs e with
      | Some (d :: ds) => path <$> (d :: ds)
      | _ => alphaDirs e
      end
  end.

(** [adjustViewport], lines 246-251. *)
Definition adjustViewport (len selected currentOffset viewSize : Z) : Z :=
  if len <=? viewSize then 0
  else if selected <? currentOffset then selected
  else if selected >=? currentOffset + viewSize then selected - viewSize + 1
  else currentOffset.

(** The scroll rule in the words of the specification: [if selected <
    offset, offset := selected; if selected >= offset + windowSize, offset
    := selected - windowSize + 1; otherwise unchanged]. *)
Definition scrollRule (selected offset windowSize : Z) : Z :=
  if selected <? offset then selected
  else if selected >=? offset + windowSize then selected - windowSize + 1
  else offset.

(** The updater of the clamp effect, lines 286-289. *)
Definition clampIndex (navigableLen idx : Z) : Z :=
  if navigableLen =? 0 then 0
  else Z.max 0 (Z.min idx (navigableLen - 1)).

(** ** Persistence store, [src/persist.ts] *)

(** [type PersistEntry = { lastScan; dirs; files }]. *)
Record PersistEntry := {
  p_lastScan : Z;
  p_dirs : list SizeEntry;
  p_files : list SizeEntry
}.

(** What [JSON.parse(fs.readFileSync(file))] finds.  The read or the
    parse throws ([Unreadable]), or the text denotes a JSON value: an
    object, an array, a string, or one of [null], a number, [true] and
    [false].  Integers and strings survive the trip through JSON text
    unchanged, so a file is represented by the value it denotes.  What an
    object or an array holds is taken to be of the type the source gives
    it, [PersistEntry]; an array may also hold [null], which is what
    [JSON.stringify] writes for a hole. *)
Inductive CacheFile :=
| Unreadable
| Stored (data : gmap string PersistEntry)
| StoredArray (elems : list (option PersistEntry))
| StoredText (chars : nat)
| StoredScalar.

(** [data[k] = v] on a plain object.  Every key creates or overwrites an
    own property, except the key [__proto__] when the object has no own
    property of that name: the assignment then reaches the accessor on
    [Object.prototype] and the own properties, the only ones
    [JSON.stringify] writes, stay as they were. *)
Definition obj_set {V : Type} (data : gmap string V) (k : string) (v : V)
    : gmap string V :=
  if bool_decide (k = "__proto__") && bool_decide (data !! k = None)
  then data
  else <[k := v]> data.

(** The array index a property key denotes, if it is one: the decimal
    numeral, without leading zeros, of an integer below 2^32 - 1. *)
Definition digit_of (c : ascii) : option N :=
  let n := N_of_ascii c in
  if ((48 <=? n) && (n <=? 57))%N then Some (n - 48)%N else None.

Fixpoint digits_value (acc : N) (cs : list ascii) : option N :=
  match cs with
  | [] => Some acc
  | c :: r =>
      match digit_of c with
      | Some d => digits_value (10 * acc + d)%N r
      | None => None
      end
  end.

Definition array_index (k : string) : option nat :=
  match String.list_ascii_of_string k with
  | [] => None
  | c :: r =>
      if Ascii.eqb c "0"%char && negb (bool_decide (r = [])) then None
      else match digits_value 0 (c :: r) with
           | Some n => if (n <? 4294967295)%N then Some (N.to_nat n) else None
           | None => None
           end
  end.

(** [data[i] = v] on an array: an element within the length is replaced;
    beyond it the array grows, with holes up to position [i]. *)
Definition array_set (elems : list (option PersistEntry)) (i : nat)
    (v : PersistEntry) : list (option PersistEntry) :=
  if decide (i < length elems)%nat then <[i := Some v]> elems
  else elems ++ replicate (i - length elems) None ++ [Some v].

(** Lines 48-52 and the argument of line 53: [data] is [{}] when the
    read or the parse throws and the parsed value otherwise; then
    [data[dirPath] = entry]; the result is the value that the text
    [JSON.stringify(data)] denotes, [None] when the assignment throws.  On
    an array a key that is neither an index nor [length] makes a property
    that [JSON.stringify] leaves out, and [length] cannot be set to an
    object.  A string, a number, a boolean and [null] take no property:
    the module is strict code and the assignment throws. *)
Definition assigned (file : CacheFile) (dirPath : string)
    (entry : PersistEntry) : option CacheFile :=
  match file with
  | Unreadable => Some (Stored (obj_set ∅ dirPath entry))
  | Stored d => Some (Stored (obj_set d dirPath entry))
  | StoredArray elems =>
      if String.eqb dirPath "length" then None
      else match array_index dirPath with
           | Some i => Some (StoredArray (array_set elems i entry))
           | None => Some (StoredArray elems)
           end
  | StoredText _ | StoredScalar => None
  end.

(** [saveCacheToDisk], lines 46-54.  [writable] tells whether
    [fs.writeFileSync] succeeds; [None] stands for an exception, which
    leaves the file as it is. *)
Definition saveCacheToDisk (dirPath : string) (entry : PersistEntry)
    (writable : bool) (file : CacheFile) : option CacheFile :=
  match assigned file dirPath entry with
  | Some data => if writable then Some data else None
  | None => None
  end.

(** The files the navigator itself leaves: none, or an object. *)
Definition well_formed (file : CacheFile) : Prop :=
  match file with
  | Unreadable | Stored _ => True
  | _ => False
  end.

(** The entry [loadCacheFromDisk] builds for one persisted path. *)
Definition hydrated (p : string) (val : PersistEntry) : DirCacheEntry :=
  {| status := scanned; entry_path := p; alphaDirs := [];
     dirs := Some (p_dirs val); files := Some (p_files val);
     lastScan := Some (p_lastScan val); msg := None |}.

(** The entry it builds from a value without the three fields (a
    character of a string): they are [undefined]. *)
Definition bare (p : string) : DirCacheEntry :=
  {| status := scanned; entry_path := p; alphaDirs := [];
     dirs := None; files := None; lastScan := None; msg := None |}.

(** [loadCacheFromDisk], lines 24-44.  [Object.entries] of an array or a
    string lists the positions under their decimal numerals, of a number
    or a boolean nothing, and throws on [null]; reading [val.dirs] throws
    when [val] is [null].  An exception anywhere yields the empty map. *)
Definition loadCacheFromDisk (file : CacheFile) : gmap string DirCacheEntry :=
  match file with
  | Unreadable => ∅
  | Stored data => map_imap (λ p val, Some (hydrated p val)) data
  | StoredArray elems =>
      match mapM id elems with
      | Some vals =>
          list_to_map (imap (λ i val, (pretty i, hydrated (pretty i) val)) vals)
      | None => ∅
      end
  | StoredText chars =>
      list_to_map ((λ i : nat, (pretty i, bare (pretty i))) <$> seq 0 chars)
  | StoredScalar => ∅
  end.

(** ** The state of the navigator *)

Inductive PromptStatus := confirm | working.

Record DeletePrompt := {
  dp_path : string;
  dp_label : string;
  dp_status : PromptStatus;
  dp_error : option string
}.

(** The [useState] cells of [Navigator], its [scanSeqRef], and the cache
    file. *)
Record Nav := {
  currentPath : string;
  selectedIndex : Z;
  cache : gmap string DirCacheEntry;
  progressDirs : option Progress;
  elapsedStart : Z;
  currentSizeKb : option Z;
  deletePrompt : option DeletePrompt;
  viewOffset : Z;
  scanSeqRef : Z;
  disk : CacheFile
}.

Definition setCurrentPath (v : string) (st : Nav) : Nav :=
  {| currentPath := v; selectedIndex := selectedIndex st; cache := cache st;
     progressDirs := progressDirs st; elapsedStart := elapsedStart st;
     currentSizeKb := currentSizeKb st; deletePrompt := deletePrompt st;
     viewOffset := viewOffset st; scanSeqRef := scanSeqRef st;
     disk := disk st |}.

Definition setSelectedIndex (f : Z → Z) (st : Nav) : Nav :=
  {| currentPath := currentPath st; selectedIndex := f (selectedIndex st);
     cache := cache st; progressDirs := progressDirs st;
     elapsedStart := elapsedStart st; currentSizeKb := currentSizeKb st;
     deletePrompt := deletePrompt st; viewOffset := viewOffset st;
     scanSeqRef := scanSeqRef st; disk := disk st |}.

Definition setCache
    (f : gmap string DirCacheEntry → gmap string DirCacheEntry) (st : Nav)
    : Nav :=
  {| currentPath := currentPath st; selectedIndex := selectedIndex st;
     cache := f (cache st); progressDirs := progressDirs st;
     elapsedStart := elapsedStart st; currentSizeKb := currentSizeKb st;
     deletePrompt := deletePrompt st; viewOffset := viewOffset st;
     scanSeqRef := scanSeqRef st; disk := disk st |}.

Definition setProgressDirs (v : option Progress) (st : Nav) : Nav :=
  {| currentPath := currentPath st; selectedIndex := selectedIndex st;
     cache := cache st; progressDirs := v; elapsedStart := elapsedStart st;
     currentSizeKb := currentSizeKb st; deletePrompt := deletePrompt st;
     viewOffset := viewOffset st; scanSeqRef := scanSeqRef st;
     disk := disk st |}.

Definition setElapsedStart (v : Z) (st : Nav) : Nav :=
  {| currentPath := currentPath st; selectedIndex := selectedIndex st;
     cache := cache st; progressDirs := progressDirs st; elapsedStart := v;
     currentSizeKb := currentSizeKb st; deletePrompt := deletePrompt st;
     viewOffset := viewOffset st; scanSeqRef := scanSeqRef st;
     disk := disk st |}.

Definition setCurrentSizeKb (v : option Z) (st : Nav) : Nav :=
  {| currentPath := currentPath st; selectedIndex := selectedIndex st;
     cache := cache st; progressDirs := progressDirs st;
     elapsedStart := elapsedStart st; currentSizeKb := v;
     deletePrompt := deletePrompt st; viewOffset := viewOffset st;
     scanSeqRef := scanSeqRef st; disk := disk st |}.

Definition setDeletePrompt
    (f : option DeletePrompt → option DeletePrompt) (st : Nav) : Nav :=
  {| currentPath := currentPath st; selectedIndex := selectedIndex st;
     cache := cache st; progressDirs := progressDirs st;
     elapsedStart := elapsedStart st; currentSizeKb := currentSizeKb st;
     deletePrompt := f (deletePrompt st); viewOffset := viewOffset st;
     scanSeqRef := scanSeqRef st; disk := disk st |}.

Definition setViewOffset (v : Z) (st : Nav) : Nav :=
  {| currentPath := currentPath st; selectedIndex := selectedIndex st;
     cache := cache st; progressDirs := progressDirs st;
     elapsedStart := elapsedStart st; currentSizeKb := currentSizeKb st;
     deletePrompt := deletePrompt st; viewOffset := v;
     scanSeqRef := scanSeqRef st; disk := disk st |}.

(** [++scanSeqRef.current]. *)
Definition bumpScanSeq (st : Nav) : Nav :=
  {| currentPath := currentPath st; selectedIndex := selectedIndex st;
     cache := cache st; progressDirs := progressDirs st;
     elapsedStart := elapsedStart st; currentSizeKb := currentSizeKb st;
     deletePrompt := deletePrompt st; viewOffset := viewOffset st;
     scanSeqRef := scanSeqRef st + 1; disk := disk st |}.

Definition setDisk (v : CacheFile) (st : Nav) : Nav :=
  {| currentPath := currentPath st; selectedIndex := selectedIndex st;
     cache := cache st; progressDirs := progressDirs st;
     elapsedStart := elapsedStart st; currentSizeKb := currentSizeKb st;
     deletePrompt := deletePrompt st; viewOffset := viewOffset st;
     scanSeqRef := scanSeqRef st; disk := v |}.

(** The navigable list of the current render, lines 118-120. *)
Definition navigableList (st : Nav) : list string :=
  getNavigableList (cache st !! currentPath st).

Definition navigableLen (st : Nav) : Z := Z.of_nat (length (navigableList st)).

(** The clamp effect, lines 285-290: it runs after a render in which
    [navigableLen] differs from the previous one. *)
Definition clampEffect (st : Nav) : Nav :=
  setSelectedIndex (clampIndex (navigableLen st)) st.

(** ** The worker pool of [measureDirs], lines 30-49 *)

(** A worker suspended at [await runDuKb(d)] holds its locals [i], [d]. *)
Record Worker := { w_i : nat; w_d : string }.

#[global] Instance Worker_eq_dec : EqDecision Worker.
Proof. solve_decision. Defined.

(** The variables the workers share: [dirs], the cursor [idx], [results];
    and the workers that have not returned yet. *)
Record Pool := {
  pool_dirs : list string;
  idx : nat;
  results : list SizeEntry;
  workers : list Worker
}.

(** One pass through the head of the worker loop, lines 37-40:
    [const i = idx++; if (i >= total) break; const d = dirs[i];] and the
    call of [runDuKb(d)], at which the worker suspends. *)
Definition pull (pl : Pool) : Pool :=
  let i := idx pl in
  match pool_dirs pl !! i with
  | None =>
      {| pool_dirs := pool_dirs pl; idx := S i; results := results pl;
         workers := workers pl |}
  | Some d =>
      {| pool_dirs := pool_dirs pl; idx := S i; results := results pl;
         workers := workers pl ++ [{| w_i := i; w_d := d |}] |}
  end.

(** Line 45: [Array.from({length: Math.min(CONCURRENCY, Math.max(1,
    total))}, () => worker())] runs each worker up to its first
    suspension, one after the other. *)
Definition spawnWorkers (ds : list string) : Pool :=
  Nat.iter (Nat.min CONCURRENCY (Nat.max 1 (length ds))) pull
    {| pool_dirs := ds; idx := 0; results := []; workers := [] |}.

Definition findWorker (i : nat) (pl : Pool) : option Worker :=
  List.find (λ w, Nat.eqb (w_i w) i) (workers pl).

Definition dropWorker (i : nat) (pl : Pool) : Pool :=
  {| pool_dirs := pool_dirs pl; idx := idx pl; results := results pl;
     workers := List.filter (λ w, negb (Nat.eqb (w_i w) i)) (workers pl) |}.

(** Line 41, [results.push({kb, path: d})], by the worker holding [w]. *)
Definition pushResult (w : Worker) (kbv : Z) (pl : Pool) : Pool :=
  {| pool_dirs := pool_dirs pl; idx := idx pl;
     results := results pl ++ [{| kb := kbv; path := w_d w |}];
     workers := workers pl |}.

Definition progressOf (pl : Pool) : Progress :=
  {| phase := "measuring"; processed := Z.of_nat (length (results pl));
     total := Z.of_nat (length (pool_dirs pl)) |}.

(** ** The scan coordinator, [triggerScan], lines 181-241 *)

(** The updater of lines 183-192. *)
Definition markScanning (p : string) (force : bool)
    (prev : gmap string DirCacheEntry) : gmap string DirCacheEntry :=
  match prev !! p with
  | None => prev
  | Some ent =>
      if is_scanning (status ent) then prev
      else if negb force && is_scanned (status ent) then prev
      else <[p := set_status_msg scanning (Some "Scanning…") ent]> prev
  end.

(** The updater of lines 210-221. *)
Definition commitScan (p : string) (dirSizes : list SizeEntry) (now : Z)
    (prev : gmap string DirCacheEntry) : gmap string DirCacheEntry :=
  match prev !! p with
  | Some ent => <[p := set_scan_result (take TOP_N dirSizes) now ent]> prev
  | None => prev
  end.

(** The updater of the [catch] block, lines 227-235. *)
Definition failScan (p : string) (message : string)
    (prev : gmap string DirCacheEntry) : gmap string DirCacheEntry :=
  match prev !! p with
  | Some ent =>
      <[p := set_status_msg unscanned (Some ("Scan failed: " +:+ message)) ent]>
        prev
  | None => prev
  end.

Definition catchBlock (p message : string) (st : Nav) : Nav :=
  setCache (failScan p message) st.

(** The [finally] block, lines 236-240. *)
Definition finallyBlock (mySeq : Z) (st : Nav) : Nav :=
  if scanSeqRef st =? mySeq then setProgressDirs None st else st.

(** The progress callback, lines 200-207; [lastDirsTs] is the variable
    of line 199, returned with the state; [now] is [Date.now()]. *)
Definition progressCallback (mySeq : Z) (prog : Progress)
    (now lastDirsTs : Z) (st : Nav) : Nav * Z :=
  if negb (scanSeqRef st =? mySeq) then (st, lastDirsTs)
  else if (now - lastDirsTs >? 150) || (processed prog =? total prog)
       then (setProgressDirs (Some prog) st, now)
       else (st, lastDirsTs).

(** Where a scan is suspended. *)
Inductive ScanPoint :=
| AtList                              (* line 196, [await listDirsViaFind(p)] *)
| AtPool (pl : Pool) (lastDirsTs : Z) (* line 200, on [Promise.all], line 46 *)
| Detached (pl : Pool) (lastDirsTs : Z)
    (* [triggerScan] has left through [catch]; workers still run *)
| AtSize                              (* line 225, [await runDuKb(p)] *)
| Ended.

(** A call of [triggerScan] in flight: the argument [p] and the point of
    suspension.  Its [mySeq] is its key in the table of scans. *)
Record Scan := { scan_path : string; at_point : ScanPoint }.

(** A call of [confirmDelete] suspended at [await fs.promises.rm], line
    256: its argument and the [currentPath] and [cache] bindings of the
    render whose key handler made the call, which lines 269-279 read when
    the call resumes. *)
Record Removal := {
  rm_target : string;
  rm_cp : string;
  rm_seen : gmap string DirCacheEntry
}.

(** The navigator with the calls in flight: the scans under their tokens;
    the removals, in the order in which they were started; and the paths
    of the listings that the ensure effect (line 133) and Enter (line 359)
    have started to fill [alphaDirs].  A removal or a listing that has
    settled is [None]. *)
Record Sys := {
  nav : Nav;
  scans : gmap Z Scan;
  removals : list (option Removal);
  listings : list (option string)
}.

Definition withNav (st : Nav) (s : Sys) : Sys :=
  {| nav := st; scans := scans s; removals := removals s;
     listings := listings s |}.

(** [listDirsViaFind(p)] has been called for [alphaDirs]. *)
Definition listingStarted (p : string) (s : Sys) : Sys :=
  {| nav := nav s; scans := scans s; removals := removals s;
     listings := listings s ++ [Some p] |}.

(** A listing has settled. *)
Definition listingSettled (k : nat) (s : Sys) : Sys :=
  {| nav := nav s; scans := scans s; removals := removals s;
     listings := <[k := None]> (listings s) |}.

Definition park (mySeq : Z) (p : string) (pt : ScanPoint) (st : Nav) (s : Sys)
    : Sys :=
  {| nav := st;
     scans := <[mySeq := {| scan_path := p; at_point := pt |}]> (scans s);
     removals := removals s; listings := listings s |}.

(** Lines 197-200 and the synchronous start of [measureDirs] (lines
    31-45): stale check, first progress value, first call of the
    callback with [lastDirsTs = 0], start of the workers. *)
Definition afterListing (mySeq : Z) (alpha : list string) (now : Z)
    (st : Nav) : Nav * ScanPoint :=
  if negb (scanSeqRef st =? mySeq) then (finallyBlock mySeq st, Ended)
  else
    let total := Z.of_nat (length alpha) in
    let st := setProgressDirs
                (Some {| phase := "measuring"; processed := 0; total := total |})
                st in
    let '(st, ts) :=
      progressCallback mySeq
        {| phase := "measuring"; processed := 0; total := total |} now 0 st in
    (st, AtPool (spawnWorkers alpha) ts).

(** A worker resumes with the size [kbv] (lines 41-42) and goes round the
    loop once more. *)
Definition resumeWorker (mySeq : Z) (w : Worker) (kbv now : Z) (pl : Pool)
    (lastDirsTs : Z) (st : Nav) : Nav * Pool * Z :=
  let pl := pushResult w kbv (dropWorker (w_i w) pl) in
  let '(st, ts) := progressCallback mySeq (progressOf pl) now lastDirsTs st in
  (st, pull pl, ts).

(** The write-through of line 223; its exception is swallowed. *)
Definition persist (p : string) (entry : PersistEntry) (writable : bool)
    (st : Nav) : Nav :=
  match saveCacheToDisk p entry writable (disk st) with
  | Some file => setDisk file st
  | None => st
  end.

(** Lines 47-48 and 209-225, once every worker has returned: sort, stale
    check, commit, write-through, then suspend on the size refresh.
    [now] and [nowSave] are the two readings of [Date.now()]. *)
Definition afterMeasuring (mySeq : Z) (p : string) (pl : Pool)
    (now nowSave : Z) (writable : bool) (st : Nav) : Nav * ScanPoint :=
  let dirSizes := sort_desc (results pl) in
  if negb (scanSeqRef st =? mySeq) then (finallyBlock mySeq st, Ended)
  else
    let st := setCache (commitScan p dirSizes now) st in
    let st := persist p {| p_lastScan := nowSave;
                           p_dirs := take TOP_N dirSizes;
                           p_files := [] |} writable st in
    (st, AtSize).

(** Line 225 and the [finally] block; [r = None] when [runDuKb] threw. *)
Definition afterSize (mySeq : Z) (r : option Z) (st : Nav) : Nav :=
  let st := match r with
            | Some kbv => if scanSeqRef st =? mySeq
                          then setCurrentSizeKb (Some kbv) st else st
            | None => st
            end in
  finallyBlock mySeq st.

(** Line 196: the child list comes from the entry of the render's [cache]
    when it has one, otherwise from the listing. *)
Definition cachedAlpha (entryBefore : option DirCacheEntry)
    : option (list string) :=
  match entryBefore with
  | Some e => match alphaDirs e with [] => None | l => Some l end
  | None => None
  end.

(** [triggerScan(p, force)] up to its first suspension.  [seen] is the
    [cache] binding of the render whose handler makes the call. *)
Definition triggerScan (seen : gmap string DirCacheEntry) (p : string)
    (force : bool) (now : Z) (s : Sys) : Sys :=
  let st := bumpScanSeq (nav s) in
  let mySeq := scanSeqRef st in
  let st := setCache (markScanning p force) st in
  match cachedAlpha (seen !! p) with
  | Some alpha =>
      let '(st, pt) := afterListing mySeq alpha now st in
      park mySeq p pt st s
  | None => park mySeq p AtList st s
  end.

(** ** Directory cache maintenance *)

(** The placeholder of lines 125-130 (and 357). *)
Definition placeholder (p : string) : DirCacheEntry :=
  {| status := unscanned; entry_path := p; alphaDirs := []; dirs := None;
     files := None; lastScan := None;
     msg := Some "Unscanned. Press Enter to scan." |}.

(** Lines 124-130: [if (!cache.has(p)) setCache(prev => new
    Map(prev).set(p, placeholder))]. *)
Definition ensureEntry (p : string) (st : Nav) : Nav :=
  match cache st !! p with
  | Some _ => st
  | None => setCache (λ prev, <[p := placeholder p]> prev) st
  end.

(** The effect on the whole system: for a path without an entry it also
    starts the listing of lines 131-140. *)
Definition ensureEffect (p : string) (s : Sys) : Sys :=
  match cache (nav s) !! p with
  | Some _ => s
  | None => withNav (ensureEntry p (nav s)) (listingStarted p s)
  end.

(** Lines 134-139: the listing of [p] has arrived; [alpha] is the array
    after its sort by base name. *)
Definition fillAlpha (p : string) (alpha : list string)
    (prev : gmap string DirCacheEntry) : gmap string DirCacheEntry :=
  match prev !! p with
  | Some ent => <[p := set_children alpha (dirs ent) ent]> prev
  | None => prev
  end.

(** Lines 156-165: the persisted cache replaces the state when it is not
    empty. *)
Definition hydrateFromPersistence (st : Nav) : Nav :=
  let loaded := loadCacheFromDisk (disk st) in
  if bool_decide (loaded = ∅) then st else setCache (λ _, loaded) st.

(** The updater of [confirmDelete], lines 258-268. *)
Definition removeFromCache (targetPath : string)
    (prev : gmap string DirCacheEntry) : gmap string DirCacheEntry :=
  let next := delete targetPath prev in
  let parent := dirname targetPath in
  match next !! parent with
  | Some parentEntry =>
      <[parent :=
          set_children
            (filter (λ d, d ≠ targetPath) (alphaDirs parentEntry))
            (filter (λ d, path d ≠ targetPath) <$> dirs parentEntry)
            parentEntry]> next
  | None => next
  end.

(** ** Deletion, [confirmDelete], lines 253-283 *)

(** Line 254, before [fs.promises.rm] is awaited. *)
Definition confirmDelete_begin (st : Nav) : Nav :=
  setDeletePrompt
    (λ prev, match prev with
             | Some d => Some {| dp_path := dp_path d; dp_label := dp_label d;
                                 dp_status := working; dp_error := None |}
             | None => None
             end) st.

(** Lines 257-279, after [rm] has succeeded.  [cp] and [seen] are the
    [currentPath] and [cache] bindings of the render whose handler called
    [confirmDelete]; [now] and [nowScan] are the clock readings of line
    278 and of the scan that line 279 starts. *)
Definition confirmDelete_done (cp : string)
    (seen : gmap string DirCacheEntry) (targetPath : string)
    (now nowScan : Z) (s : Sys) : Sys :=
  let st := setDeletePrompt (λ _, None) (nav s) in
  let st := setCache (removeFromCache targetPath) st in
  let st :=
    if bool_decide (cp = targetPath) then
      let parent := dirname targetPath in
      if negb (String.eqb parent "") && negb (String.eqb parent targetPath)
      then setViewOffset 0 (setSelectedIndex (λ _, 0) (setCurrentPath parent st))
      else st
    else st in
  let st := setElapsedStart now st in
  triggerScan seen
    (if bool_decide (cp = targetPath) then dirname targetPath else cp)
    true nowScan (withNav st s).

(** Line 281, after [rm] has failed. *)
Definition confirmDelete_failed (message : string) (st : Nav) : Nav :=
  setDeletePrompt
    (λ prev, match prev with
             | Some d => Some {| dp_path := dp_path d; dp_label := dp_label d;
                                 dp_status := confirm;
                                 dp_error := Some message |}
             | None => None
             end) st.

(** Lines 299-303: the confirm key starts [confirmDelete] unless a
    deletion is already under way. *)
Definition confirmKey (st : Nav) : Nav :=
  match deletePrompt st with
  | Some d => match dp_status d with
              | working => st
              | confirm => confirmDelete_begin st
              end
  | None => st
  end.

(** Lines 295-298: the cancel key drops the prompt. *)
Definition cancelKey (st : Nav) : Nav :=
  match deletePrompt st with
  | Some _ => setDeletePrompt (λ _, None) st
  | None => st
  end.

(** The confirm key on the whole system: the call of [confirmDelete] it
    makes stays in flight, with the bindings of this render. *)
Definition pressConfirm (s : Sys) : Sys :=
  {| nav := confirmKey (nav s);
     scans := scans s;
     removals :=
       match deletePrompt (nav s) with
       | Some d =>
           match dp_status d with
           | working => removals s
           | confirm =>
               removals s ++ [Some {| rm_target := dp_path d;
                                      rm_cp := currentPath (nav s);
                                      rm_seen := cache (nav s) |}]
           end
       | None => removals s
       end;
     listings := listings s |}.

(** A removal has settled. *)
Definition settled (k : nat) (s : Sys) : Sys :=
  {| nav := nav s; scans := scans s; removals := <[k := None]> (removals s);
     listings := listings s |}.

(** The three states of the navigation machine, read off [deletePrompt]. *)
Inductive Mode := Browsing | ConfirmingDelete | Deleting.

Definition mode (st : Nav) : Mode :=
  match deletePrompt st with
  | None => Browsing
  | Some d => match dp_status d with
              | confirm => ConfirmingDelete
              | working => Deleting
              end
  end.

(** ** [path.basename] and [basenameNoSlash], lines 25-28 *)






(** ** The key handler, lines 293-393 *)


















(** ** Events and interleavings *)

Inductive Event :=
| Trigger (p : string) (force : bool) (now : Z)
    (* a handler calls [triggerScan(p, force)] *)
| ListDone (t : Z) (alpha : list string) (now : Z)
    (* scan [t]: [listDirsViaFind] resolved *)
| ListFailed (t : Z) (message : string)
    (* scan [t]: [listDirsViaFind] rejected *)
| DuDone (t : Z) (i : nat) (kbv now : Z)
    (* scan [t]: the worker measuring [dirs[i]] got its size *)
| DuFailed (t : Z) (i : nat) (message : string)
    (* scan [t]: [runDuKb(dirs[i])] rejected *)
| Joined (t : Z) (now nowSave : Z) (writable : bool)
    (* scan [t]: [Promise.all(workers)] resolved *)
| SizeDone (t : Z) (r : option Z)
    (* scan [t]: the size refresh of line 225 settled *)
| RmDone (k : nat) (now nowScan : Z)
    (* removal [k]: [fs.promises.rm] resolved *)
| RmFailed (k : nat) (message : string)
    (* removal [k]: [fs.promises.rm] rejected *)
| ConfirmKey
    (* [y] or Enter at the prompt, lines 299-303 *)
| CancelKey
    (* [n] or Escape at the prompt, lines 295-298 *)
| Ensure (p : string)
    (* the effect of lines 123-140 runs for [p] *)
| AlphaListed (k : nat) (alpha : list string)
    (* listing [k]: [listDirsViaFind] resolved, lines 134-139, 360 *)
| Hydrate.
    (* the persisted cache has been read at start-up, lines 156-165 *)

(** What a suspended scan does when it is resumed. *)
Definition resume (t : Z) (sc : Scan) (e : Event) (st : Nav)
    : option (Nav * ScanPoint) :=
  let p := scan_path sc in
  match e, at_point sc with
  | ListDone _ alpha now, AtList => Some (afterListing t alpha now st)
  | ListFailed _ m, AtList =>
      Some (finallyBlock t (catchBlock p m st), Ended)
  | DuDone _ i kbv now, AtPool pl ts =>
      match findWorker i pl with
      | Some w => let '(st, pl, ts) := resumeWorker t w kbv now pl ts st in
                  Some (st, AtPool pl ts)
      | None => None
      end
  | DuDone _ i kbv now, Detached pl ts =>
      match findWorker i pl with
      | Some w => let '(st, pl, ts) := resumeWorker t w kbv now pl ts st in
                  Some (st, Detached pl ts)
      | None => None
      end
  | DuFailed _ i m, AtPool pl ts =>
      match findWorker i pl with
      | Some w => Some (finallyBlock t (catchBlock p m st),
                        Detached (dropWorker i pl) ts)
      | None => None
      end
  | DuFailed _ i m, Detached pl ts =>
      match findWorker i pl with
      | Some w => Some (st, Detached (dropWorker i pl) ts)
      | None => None
      end
  | Joined _ now nowSave writable, AtPool pl ts =>
      match workers pl with
      | [] => Some (afterMeasuring t p pl now nowSave writable st)
      | _ :: _ => None
      end
  | SizeDone _ r, AtSize => Some (afterSize t r st, Ended)
  | _, _ => None
  end.

(** The scan an event resumes, if it resumes one. *)
Definition owner (e : Event) : option Z :=
  match e with
  | ListDone t _ _ | ListFailed t _ | DuDone t _ _ _ | DuFailed t _ _
  | Joined t _ _ _ | SizeDone t _ => Some t
  | _ => None
  end.

(** Events that run the [catch] block. *)
Definition is_failure (e : Event) : bool :=
  match e with
  | ListFailed _ _ | DuFailed _ _ _ => true
  | _ => false
  end.

(** What the handler of one event does.  An event that resumes a scan
    which is not suspended at the matching point, or a removal or a
    listing that is not in flight, cannot occur and leaves the system as
    it is.  An event
    may resume a suspended call at any later time: the semantics allows
    every order of completion, and more. *)
Definition handle (e : Event) (s : Sys) : Sys :=
  match e with
  | Trigger p force now => triggerScan (cache (nav s)) p force now s
  | RmDone k now nowScan =>
      match removals s !! k with
      | Some (Some r) =>
          confirmDelete_done (rm_cp r) (rm_seen r) (rm_target r) now nowScan
            (settled k s)
      | _ => s
      end
  | RmFailed k message =>
      match removals s !! k with
      | Some (Some r) =>
          withNav (confirmDelete_failed message (nav s)) (settled k s)
      | _ => s
      end
  | ConfirmKey => pressConfirm s
  | CancelKey => withNav (cancelKey (nav s)) s
  | Ensure p => ensureEffect p s
  | AlphaListed k alpha =>
      match listings s !! k with
      | Some (Some p) =>
          withNav (setCache (fillAlpha p alpha) (nav s)) (listingSettled k s)
      | _ => s
      end
  | Hydrate => withNav (hydrateFromPersistence (nav s)) s
  | _ =>
      match owner e with
      | Some t =>
          match scans s !! t with
          | Some sc =>
              match resume t sc e (nav s) with
              | Some (st, pt) => park t (scan_path sc) pt st s
              | None => s
              end
          | None => s
          end
      | None => s
      end
  end.

(** The render that follows a handler, and its effects.  The clamp
    effect of lines 285-290 has the dependency [navigableLen]: it runs
    after the render when that length is not the one of the render
    before, [before] being the state that render drew. *)
Definition afterRender (before : Nav) (s : Sys) : Sys :=
  if navigableLen (nav s) =? navigableLen before then s
  else withNav (clampEffect (nav s)) s.

(** One event: its handler, the render, the effect. *)
Definition step (e : Event) (s : Sys) : Sys :=
  afterRender (nav s) (handle e s).

(** An interleaving, oldest event first. *)
Definition run (tr : list Event) (s : Sys) : Sys :=
  foldl (λ s e, step e s) s tr.

(** ** Sessions *)







(** ** The entry point, [src/index.tsx] *)

Inductive Ui := App | Navigator.

(** What starting the process leads to.  The entry point has a single
    statement, [render(...)]; [StartupError] is the outcome it never
    produces. *)
Inductive Startup :=
| Render (ui : Ui)
| StartupError (exitCode : Z).

(** Line 9, on [first = argv[0]]. *)
Definition legacy (first : option string) : bool :=
  match first with
  | Some f => bool_decide (f ∈ ["dirs"; "files"; "nodes"; "preset"; "--"])
  | None => false
  end.

(** Lines 7-12; [stdinIsTTY] is the truth value of
    [process.stdin.isTTY].  (The file holds a second text of these lines
    that routes by [legacy] alone; the routing with the terminal check,
    which comes first, is the one embedded.) *)
Definition entry (argv : list string) (stdinIsTTY : bool) : Startup :=
  let first := head argv in
  let nonTty := negb stdinIsTTY in
  Render (if legacy first || nonTty then App else Navigator).

(** ** Sample states *)

Definition sampleNav (c : gmap string DirCacheEntry) : Nav :=
  {| currentPath := "/r"; selectedIndex := 0; cache := c;
     progressDirs := None; elapsedStart := 0; currentSizeKb := None;
     deletePrompt := None; viewOffset := 0; scanSeqRef := 0;
     disk := Unreadable |}.

Definition sampleSys (c : gmap string DirCacheEntry) : Sys :=
  {| nav := sampleNav c; scans := ∅; removals := []; listings := [] |}.

(** [/r] visited and listed, not scanned yet. *)
Definition listedEntry (p : string) (alpha : list string) : DirCacheEntry :=
  set_children alpha None (placeholder p).

(** [/r] with the result of an earlier scan. *)
Definition scannedEntry (p : string) (alpha : list string)
    (ds : list SizeEntry) : DirCacheEntry :=
  {| status := scanned; entry_path := p; alphaDirs := alpha; dirs := Some ds;
     files := Some []; lastScan := Some 1; msg := None |}.

Definition fiveChildren : list string :=
  ["/r/a"; "/r/b"; "/r/c"; "/r/d"; "/r/e"].

(** Scenario 1 of the specification: sizes 10, 50, 5, 200, 1, the five
    measurements finishing out of order. *)
Definition scenario1 : list Event :=
  [ Trigger "/r" true 1000;
    DuDone 1 3 200 1010; DuDone 1 0 10 1020; DuDone 1 4 1 1030;
    DuDone 1 2 5 1040; DuDone 1 1 50 1050;
    Joined 1 1060 1061 true ].

(** Scenario 2: scan 1 of [/r], started at time 1000, is overtaken by the
    forced rescan 2, whose single measurement and pool completion come
    first. *)
Definition oneChild : gmap string DirCacheEntry :=
  {[ "/r" := listedEntry "/r" ["/r/a"] ]}.

Definition rescanFinishes : list Event :=
  [ DuDone 2 0 7 2010; Joined 2 2020 2021 true ].

Definition scenario2 : list Event :=
  Trigger "/r" true 1000 :: Trigger "/r" true 2000 :: rescanFinishes.

(** Scenario 1 up to the moment the last worker has returned. *)
Definition scenario1_measured : list Event := take 6 scenario1.

(** Two cached paths: [/r] listed, [/q] scanned and childless. *)
Definition twoPaths : gmap string DirCacheEntry :=
  <[ "/q" := scannedEntry "/q" [] [] ]> oneChild.

(** The failing run of the [catch] block.  [/r] has seven children, one
    more than there are workers.  Scan 1 starts; the forced rescan 2
    starts, measures all seven and commits; then a worker of scan 1
    returns, takes the seventh child, and the [runDuKb] it starts for it
    is rejected. *)
Definition sevenChildren : list string :=
  ["/r/a"; "/r/b"; "/r/c"; "/r/d"; "/r/e"; "/r/f"; "/r/g"].

Definition staleFailureSetup : list Event :=
  [ Trigger "/r" true 1000; Trigger "/r" true 2000;
    DuDone 2 0 10 2010; DuDone 2 1 20 2020; DuDone 2 2 30 2030;
    DuDone 2 3 40 2040; DuDone 2 4 50 2050; DuDone 2 5 60 2060;
    DuDone 2 6 70 2070; Joined 2 2080 2081 true;
    DuDone 1 0 10 2090 ].

Definition staleFailure : Event :=
  DuFailed 1 6 "Cannot read properties of undefined (reading 'on')".

(** [/r] already scanned, one child of 5 KB. *)
Definition alreadyScanned : gmap string DirCacheEntry :=
  {[ "/r" := scannedEntry "/r" ["/r/a"] [ {| kb := 5; path := "/r/a" |} ] ]}.













(** The pools a call of [measureDirs(ds)] can be in while it waits on
    [Promise.all]: the one its start leaves, and the one a worker leaves
    when it resumes with a size and goes round its loop. *)
Inductive pool_reach (ds : list string) : Pool → Prop :=
| pool_started : pool_reach ds (spawnWorkers ds)
| pool_resumed pl i w kbv :
    pool_reach ds pl → findWorker i pl = Some w →
    pool_reach ds (pull (pushResult w kbv (dropWorker (w_i w) pl))).

(** What holds of the shared variables between two resumptions: every
    child below the cursor has either been pushed or is being measured,
    once. *)
Definition pool_pre (ds : list string) (pl : Pool) : Prop :=
  pool_dirs pl = ds
  ∧ (path <$> results pl) ++ (w_d <$> workers pl) ≡ₚ take (idx pl) ds
  ∧ NoDup (w_i <$> workers pl)
  ∧ (∀ w, w ∈ workers pl → (w_i w < idx pl)%nat).

Definition pool_ok (ds : list string) (pl : Pool) : Prop :=
  pool_pre ds pl ∧ (workers pl = [] → (length ds ≤ idx pl)%nat).

(** Every scan waiting on [Promise.all] holds a pool that its own
    [measureDirs] call has produced. *)
Definition pools_reached (s : Sys) : Prop :=
  ∀ t sc pl ts, scans s !! t = Some sc → at_point sc = AtPool pl ts →
                pool_reach (pool_dirs pl) pl.

(** Tokens of the scans in flight have all been issued: the invariant of
    the table of scans. *)
Definition tokens_issued (s : Sys) : Prop :=
  ∀ t sc, scans s !! t = Some sc → t ≤ scanSeqRef (nav s).

(** * Properties *)

(** ** The sort and the top-N cut *)

Section SortFacts.

Lemma insert_desc_perm x l : insert_desc x l ≡ₚ x :: l.
Proof.
  induction l as [|y l IH]; simpl; [done|].
  destruct (kb y <=? kb x); [done|].
  rewrite IH. apply Permutation_swap.
Qed.

Lemma sort_desc_perm l : sort_desc l ≡ₚ l.
Proof.
  induction l as [|x l IH]; simpl; [done|].
  rewrite insert_desc_perm. by f_equiv.
Qed.

Lemma insert_desc_hd a x l :
  kb_ge a x → HdRel kb_ge a l → HdRel kb_ge a (insert_desc x l).
Proof.
  intros Hax Hal. destruct l as [|y l]; simpl; [by constructor|].
  destruct (kb y <=? kb x); constructor; [done|].
  by inversion Hal.
Qed.

Lemma insert_desc_sorted x l :
  sorted_desc l → sorted_desc (insert_desc x l).
Proof.
  unfold sorted_desc. induction 1 as [|y l Hs IH Hhd]; simpl.
  - repeat constructor.
  - destruct (Z.leb_spec (kb y) (kb x)) as [Hle|Hlt].
    + constructor; [by constructor|]. by constructor.
    + constructor; [done|].
      apply insert_desc_hd; [unfold kb_ge; lia | done].
Qed.

Lemma sort_desc_sorted l : sorted_desc (sort_desc l).
Proof.
  induction l as [|x l IH]; simpl; [constructor|].
  by apply insert_desc_sorted.
Qed.

(** The sort is stable: entries of equal size keep the order in which
    the workers pushed them. *)
Lemma insert_desc_stable k x l :
  sorted_desc l →
  filter (λ e, kb e = k) (insert_desc x l) = filter (λ e, kb e = k) (x :: l).
Proof.
  unfold sorted_desc. induction 1 as [|y l Hs IH Hhd]; simpl; [done|].
  destruct (Z.leb_spec (kb y) (kb x)) as [Hle|Hlt]; [done|].
  rewrite !filter_cons. rewrite filter_cons in IH.
  destruct (decide (kb y = k)) as [Hy|Hy];
    destruct (decide (kb x = k)) as [Hx|Hx]; try lia; by rewrite IH.
Qed.

Lemma sort_desc_stable k l :
  filter (λ e, kb e = k) (sort_desc l) = filter (λ e, kb e = k) l.
Proof.
  induction l as [|x l IH]; simpl; [done|].
  rewrite insert_desc_stable by apply sort_desc_sorted.
  rewrite !filter_cons, IH. done.
Qed.

Lemma sorted_desc_take n l : sorted_desc l → sorted_desc (take n l).
Proof.
  unfold sorted_desc. intros Hs. revert n.
  induction Hs as [|y l Hs IH Hhd]; intros [|n]; simpl; try constructor.
  - apply IH.
  - destruct Hhd; destruct n; simpl; by constructor.
Qed.

Lemma sorted_desc_filter (P : SizeEntry → Prop) `{!∀ e, Decision (P e)} l :
  sorted_desc l → sorted_desc (filter P l).
Proof.
  unfold sorted_desc. intros Hs.
  assert (Transitive kb_ge) by (intros a b c; unfold kb_ge; lia).
  apply Sorted_StronglySorted in Hs; [|done].
  apply StronglySorted_Sorted.
  induction Hs as [|y l Hs IH Hall]; [constructor|].
  rewrite filter_cons. destruct (decide (P y)); [|done].
  constructor; [done|].
  rewrite list.Forall_forall in *. intros e He.
  apply Hall. by apply list_elem_of_filter in He as [_ ?].
Qed.

Lemma top_n_sorted l : sorted_desc (take TOP_N (sort_desc l)).
Proof. apply sorted_desc_take, sort_desc_sorted. Qed.

Lemma top_n_length (l : list SizeEntry) :
  (length (take TOP_N (sort_desc l)) ≤ TOP_N)%nat.
Proof. rewrite length_take. lia. Qed.

End SortFacts.

(** ** The worker pool *)

Section PoolFacts.

Variable ds : list string.

Lemma pull_pre pl : pool_pre ds pl → pool_pre ds (pull pl).
Proof.
  intros (Hd & Hperm & Hnd & Hlt). unfold pull. rewrite Hd.
  destruct (ds !! idx pl) as [d|] eqn:E; unfold pool_pre; simpl.
  - split; [done|]. split; [|split].
    + rewrite (take_S_r _ _ _ E), fmap_app, app_assoc. by rewrite Hperm.
    + rewrite fmap_app. simpl. apply NoDup_app. split; [done|].
      split; [|apply NoDup_singleton].
      intros i Hi Hi'. apply list_elem_of_singleton in Hi'. subst i.
      apply list_elem_of_fmap in Hi as (w & Hw & Hin).
      apply Hlt in Hin. lia.
    + intros w Hw. apply elem_of_app in Hw as [Hw|Hw].
      * apply Hlt in Hw. lia.
      * apply list_elem_of_singleton in Hw. subst w. simpl. lia.
  - split; [done|]. split; [|split; [done|]].
    + apply lookup_ge_None in E.
      rewrite (take_ge ds (S (idx pl))) by lia.
      by rewrite <- (take_ge ds (idx pl)) by lia.
    + intros w Hw. apply Hlt in Hw. lia.
Qed.

Lemma pull_ok pl : pool_pre ds pl → pool_ok ds (pull pl).
Proof.
  intros Hpre. split; [by apply pull_pre|].
  destruct Hpre as (Hd & _). unfold pull. rewrite Hd.
  destruct (ds !! idx pl) as [d|] eqn:E; simpl.
  - intros H. by destruct (workers pl).
  - intros _. apply lookup_ge_None in E. lia.
Qed.

Lemma spawnWorkers_ok : pool_ok ds (spawnWorkers ds).
Proof.
  unfold spawnWorkers.
  destruct (Nat.min CONCURRENCY (Nat.max 1 (length ds))) as [|k] eqn:Hk.
  { unfold CONCURRENCY in Hk. lia. }
  simpl. apply pull_ok. clear Hk.
  induction k as [|k IH]; simpl; [|by apply pull_pre].
  unfold pool_pre. simpl. repeat split; [done|apply NoDup_nil_2|].
  intros w Hw. by apply elem_of_nil in Hw.
Qed.

(** With distinct indices, dropping by index removes one worker. *)
Lemma dropWorker_perm (ws : list Worker) w :
  NoDup (w_i <$> ws) → w ∈ ws →
  ws ≡ₚ w :: List.filter (λ w', negb (Nat.eqb (w_i w') (w_i w))) ws.
Proof.
  induction ws as [|a ws IH]; intros Hnd Hin.
  - by apply elem_of_nil in Hin.
  - simpl in Hnd. apply NoDup_cons in Hnd as [Hna Hnd].
    apply elem_of_cons in Hin as [->|Hin]; simpl.
    + rewrite Nat.eqb_refl. simpl. f_equiv.
      rewrite List.forallb_filter_id; [done|].
      apply List.forallb_forall. intros w' Hw'.
      apply list_elem_of_In in Hw'.
      destruct (Nat.eqb_spec (w_i w') (w_i a)) as [Heq|]; [|done].
      exfalso. apply Hna. rewrite <- Heq.
      apply list_elem_of_fmap. by exists w'.
    + destruct (Nat.eqb_spec (w_i a) (w_i w)) as [Heq|Hne]; simpl.
      * exfalso. apply Hna. rewrite Heq.
        apply list_elem_of_fmap. by exists w.
      * rewrite (IH Hnd Hin) at 1. apply Permutation_swap.
Qed.

Lemma findWorker_spec i pl w :
  findWorker i pl = Some w → w ∈ workers pl ∧ w_i w = i.
Proof.
  unfold findWorker. intros H. apply List.find_some in H as [Hin Hi].
  split; [by apply list_elem_of_In|]. by apply Nat.eqb_eq.
Qed.

Lemma resume_pre pl i w kbv :
  pool_pre ds pl → findWorker i pl = Some w →
  pool_pre ds (pushResult w kbv (dropWorker (w_i w) pl)).
Proof.
  intros (Hd & Hperm & Hnd & Hlt) Hf.
  apply findWorker_spec in Hf as [Hin _].
  unfold pool_pre, pushResult, dropWorker. simpl.
  split; [done|]. split; [|split].
  - pose proof (dropWorker_perm (workers pl) w Hnd Hin) as Hdp.
    apply (fmap_Permutation w_d) in Hdp.
    rewrite <- Hperm, Hdp, fmap_app. simpl.
    by rewrite <- app_assoc.
  - apply (NoDup_fmap_2_strong w_i).
    + intros a b Ha Hb Hab.
      apply list_elem_of_In, List.filter_In in Ha as [Ha _].
      apply list_elem_of_In, List.filter_In in Hb as [Hb _].
      apply list_elem_of_In in Ha, Hb.
      destruct (list_elem_of_lookup_1 _ _ Ha) as [ia Hia],
               (list_elem_of_lookup_1 _ _ Hb) as [ib Hib].
      assert (ia = ib).
      { eapply NoDup_lookup; [exact Hnd| |];
          rewrite list_lookup_fmap; [by rewrite Hia|by rewrite Hib, Hab]. }
      subst ib. congruence.
    + apply NoDup_ListNoDup, List.NoDup_filter, NoDup_ListNoDup.
      by apply NoDup_fmap_1 in Hnd.
  - intros w' Hw'. apply list_elem_of_In, List.filter_In in Hw' as [Hw' _].
    apply Hlt. by apply list_elem_of_In.
Qed.

Lemma pool_reach_ok pl : pool_reach ds pl → pool_ok ds pl.
Proof.
  induction 1 as [|pl i w kbv _ [IH _] Hf].
  - apply spawnWorkers_ok.
  - apply pull_ok. by eapply resume_pre.
Qed.

(** Whatever the order in which the measurements return, when the last
    worker has returned every child has been measured exactly once. *)
Lemma pool_measures_each_child_once pl :
  pool_reach ds pl → workers pl = [] → path <$> results pl ≡ₚ ds.
Proof.
  intros Hr Hw. apply pool_reach_ok in Hr as ((_ & Hperm & _) & Hdone).
  rewrite Hw in Hperm. simpl in Hperm. rewrite app_nil_r in Hperm.
  rewrite Hperm, take_ge; [done|]. by apply Hdone.
Qed.

(** While a worker is still out, the pool can go on. *)
Lemma pool_can_resume pl w ws :
  workers pl = w :: ws → findWorker (w_i w) pl = Some w.
Proof.
  intros H. unfold findWorker. rewrite H. simpl. by rewrite Nat.eqb_refl.
Qed.

End PoolFacts.

(** ** Sequence tokens *)

Section TokenFacts.

Implicit Types (st : Nav) (s : Sys) (t : Z) (e : Event).

Lemma finallyBlock_seq t st : scanSeqRef (finallyBlock t st) = scanSeqRef st.
Proof. unfold finallyBlock. by destruct (_ =? _). Qed.

Lemma finallyBlock_cache t st : cache (finallyBlock t st) = cache st.
Proof. unfold finallyBlock. by destruct (_ =? _). Qed.

Lemma finallyBlock_stale t st : scanSeqRef st ≠ t → finallyBlock t st = st.
Proof.
  intros Hne. unfold finallyBlock.
  destruct (Z.eqb_spec (scanSeqRef st) t); [done|done].
Qed.

Lemma progressCallback_seq t prog now ts st :
  scanSeqRef (progressCallback t prog now ts st).1 = scanSeqRef st.
Proof.
  unfold progressCallback.
  destruct (negb _); [done|]. by destruct (_ || _).
Qed.

Lemma progressCallback_cache t prog now ts st :
  cache (progressCallback t prog now ts st).1 = cache st.
Proof.
  unfold progressCallback.
  destruct (negb _); [done|]. by destruct (_ || _).
Qed.

Lemma progressCallback_stale t prog now ts st :
  scanSeqRef st ≠ t → progressCallback t prog now ts st = (st, ts).
Proof.
  intros Hne. unfold progressCallback.
  by destruct (Z.eqb_spec (scanSeqRef st) t).
Qed.

Lemma afterListing_seq t alpha now st :
  scanSeqRef (afterListing t alpha now st).1 = scanSeqRef st.
Proof.
  unfold afterListing. destruct (negb _); simpl.
  - apply finallyBlock_seq.
  - destruct (progressCallback _ _ _ _ _) as [st' ts] eqn:E. simpl.
    change st' with (st', ts).1. rewrite <- E.
    by rewrite progressCallback_seq.
Qed.

Lemma afterListing_cache t alpha now st :
  cache (afterListing t alpha now st).1 = cache st.
Proof.
  unfold afterListing. destruct (negb _); simpl.
  - apply finallyBlock_cache.
  - destruct (progressCallback _ _ _ _ _) as [st' ts] eqn:E. simpl.
    change st' with (st', ts).1. rewrite <- E.
    by rewrite progressCallback_cache.
Qed.

Lemma afterListing_stale t alpha now st :
  scanSeqRef st ≠ t → afterListing t alpha now st = (st, Ended).
Proof.
  intros Hne. unfold afterListing.
  destruct (Z.eqb_spec (scanSeqRef st) t); [done|]. simpl.
  by rewrite finallyBlock_stale.
Qed.

Lemma resumeWorker_seq t w kbv now pl ts st :
  scanSeqRef (resumeWorker t w kbv now pl ts st).1.1 = scanSeqRef st.
Proof.
  unfold resumeWorker.
  destruct (progressCallback _ _ _ _ _) as [st' ts'] eqn:E. simpl.
  change st' with (st', ts').1. rewrite <- E.
  by rewrite progressCallback_seq.
Qed.


Lemma resumeWorker_stale t w kbv now pl ts st :
  scanSeqRef st ≠ t → (resumeWorker t w kbv now pl ts st).1.1 = st.
Proof.
  intros Hne. unfold resumeWorker.
  by rewrite progressCallback_stale.
Qed.

Lemma persist_seq p entry w st : scanSeqRef (persist p entry w st) = scanSeqRef st.
Proof. unfold persist. by destruct (saveCacheToDisk _ _ _ _). Qed.

Lemma persist_cache p entry w st : cache (persist p entry w st) = cache st.
Proof. unfold persist. by destruct (saveCacheToDisk _ _ _ _). Qed.

Lemma afterMeasuring_seq t p pl now nowSave w st :
  scanSeqRef (afterMeasuring t p pl now nowSave w st).1 = scanSeqRef st.
Proof.
  unfold afterMeasuring. destruct (negb _); simpl.
  - apply finallyBlock_seq.
  - by rewrite persist_seq.
Qed.

Lemma afterMeasuring_stale t p pl now nowSave w st :
  scanSeqRef st ≠ t → afterMeasuring t p pl now nowSave w st = (st, Ended).
Proof.
  intros Hne. unfold afterMeasuring.
  destruct (Z.eqb_spec (scanSeqRef st) t); [done|]. simpl.
  by rewrite finallyBlock_stale.
Qed.

Lemma afterSize_seq t r st : scanSeqRef (afterSize t r st) = scanSeqRef st.
Proof.
  unfold afterSize. rewrite finallyBlock_seq.
  destruct r; [|done]. by destruct (_ =? _).
Qed.

Lemma afterSize_stale t r st : scanSeqRef st ≠ t → afterSize t r st = st.
Proof.
  intros Hne. unfold afterSize.
  destruct r; destruct (Z.eqb_spec (scanSeqRef st) t);
    try done; by rewrite finallyBlock_stale.
Qed.

(** The [catch] block keeps the sized children of every entry. *)
Lemma failScan_dirs p m (c : gmap string DirCacheEntry) q :
  dirs <$> (failScan p m c !! q) = dirs <$> (c !! q).
Proof.
  unfold failScan. destruct (c !! p) as [ent|] eqn:E; [|done].
  destruct (decide (p = q)) as [->|Hne].
  - by rewrite lookup_insert_eq, E.
  - by rewrite lookup_insert_ne.
Qed.

(** A resumed scan never touches the counter. *)
Lemma resume_seq t sc e st st' pt :
  resume t sc e st = Some (st', pt) → scanSeqRef st' = scanSeqRef st.
Proof.
  unfold resume.
  destruct e, (at_point sc); try done; intros H.
  - apply (inj Some) in H. change st' with (st', pt).1.
    rewrite <- H. apply afterListing_seq.
  - simplify_eq. unfold catchBlock. by rewrite finallyBlock_seq.
  - destruct (findWorker _ _); [|done].
    destruct (resumeWorker _ _ _ _ _ _ _) as [[st1 pl1] ts1] eqn:E.
    simplify_eq. change st' with (st', pl1, ts1).1.1. rewrite <- E.
    apply resumeWorker_seq.
  - destruct (findWorker _ _); [|done].
    destruct (resumeWorker _ _ _ _ _ _ _) as [[st1 pl1] ts1] eqn:E.
    simplify_eq. change st' with (st', pl1, ts1).1.1. rewrite <- E.
    apply resumeWorker_seq.
  - destruct (findWorker _ _); [|done]. simplify_eq.
    unfold catchBlock. by rewrite finallyBlock_seq.
  - destruct (findWorker _ _); by simplify_eq.
  - destruct (workers pl); [|done]. apply (inj Some) in H.
    change st' with (st', pt).1. rewrite <- H. apply afterMeasuring_seq.
  - simplify_eq. apply afterSize_seq.
Qed.

(** A continuation other than the [catch] block, resumed with a token
    that is no longer the latest, leaves every state cell as it is. *)
Lemma resume_stale_inert t sc e st st' pt :
  scanSeqRef st ≠ t → is_failure e = false →
  resume t sc e st = Some (st', pt) → st' = st.
Proof.
  unfold resume. intros Hne Hf.
  destruct e, (at_point sc); try done; intros H.
  - rewrite afterListing_stale in H by done. by simplify_eq.
  - destruct (findWorker _ _); [|done].
    destruct (resumeWorker _ _ _ _ _ _ _) as [[st1 pl1] ts1] eqn:E.
    simplify_eq. change st' with (st', pl1, ts1).1.1. rewrite <- E.
    by apply resumeWorker_stale.
  - destruct (findWorker _ _); [|done].
    destruct (resumeWorker _ _ _ _ _ _ _) as [[st1 pl1] ts1] eqn:E.
    simplify_eq. change st' with (st', pl1, ts1).1.1. rewrite <- E.
    by apply resumeWorker_stale.
  - destruct (workers pl); [|done].
    rewrite afterMeasuring_stale in H by done. by simplify_eq.
  - simplify_eq. by apply afterSize_stale.
Qed.

(** Whatever a stale continuation is, [catch] block included, no
    entry's sized children change. *)
Lemma resume_stale_dirs t sc e st st' pt q :
  scanSeqRef st ≠ t →
  resume t sc e st = Some (st', pt) →
  dirs <$> (cache st' !! q) = dirs <$> (cache st !! q).
Proof.
  intros Hne H. destruct (is_failure e) eqn:Hf.
  - revert H. unfold resume.
    destruct e, (at_point sc); try done; intros H.
    + simplify_eq. unfold catchBlock. rewrite finallyBlock_cache. simpl.
      apply failScan_dirs.
    + destruct (findWorker _ _); [|done]. simplify_eq.
      unfold catchBlock. rewrite finallyBlock_cache. simpl.
      apply failScan_dirs.
    + destruct (findWorker _ _); by simplify_eq.
  - by rewrite (resume_stale_inert _ _ _ _ _ _ Hne Hf H).
Qed.

Lemma triggerScan_seq seen p force now s :
  scanSeqRef (nav (triggerScan seen p force now s)) = scanSeqRef (nav s) + 1.
Proof.
  unfold triggerScan. destruct (cachedAlpha _); [|done].
  destruct (afterListing _ _ _ _) as [st' pt] eqn:E. simpl.
  change st' with (st', pt).1. rewrite <- E.
  by rewrite afterListing_seq.
Qed.

Lemma confirmDelete_done_seq cp seen x now nowScan s :
  scanSeqRef (nav (confirmDelete_done cp seen x now nowScan s))
  = scanSeqRef (nav s) + 1.
Proof.
  unfold confirmDelete_done. rewrite triggerScan_seq. simpl.
  destruct (bool_decide _); [|done]. by destruct (_ && _).
Qed.

(** The handler of an event that resumes scan [t]. *)
Lemma handle_owned e t s :
  owner e = Some t →
  handle e s = match scans s !! t with
             | Some sc =>
                 match resume t sc e (nav s) with
                 | Some (st, pt) => park t (scan_path sc) pt st s
                 | None => s
                 end
             | None => s
             end.
Proof. destruct e; intros H; simpl in H; simplify_eq; reflexivity. Qed.

(** The effect that follows a render writes the cursor and nothing
    else. *)
Lemma afterRender_scans before s : scans (afterRender before s) = scans s.
Proof. unfold afterRender. by destruct (_ =? _). Qed.


Lemma afterRender_seq before s :
  scanSeqRef (nav (afterRender before s)) = scanSeqRef (nav s).
Proof. unfold afterRender. by destruct (_ =? _). Qed.

Lemma afterRender_cache before s :
  cache (nav (afterRender before s)) = cache (nav s).
Proof. unfold afterRender. by destruct (_ =? _). Qed.

Lemma afterRender_disk before s :
  disk (nav (afterRender before s)) = disk (nav s).
Proof. unfold afterRender. by destruct (_ =? _). Qed.



(** After a handler that left the state as it was no effect runs. *)
Lemma afterRender_same s' s : nav s' = nav s → afterRender (nav s) s' = s'.
Proof. intros H. unfold afterRender. by rewrite H, Z.eqb_refl. Qed.

Lemma step_scans e s : scans (step e s) = scans (handle e s).
Proof. apply afterRender_scans. Qed.


Lemma step_seq e s : scanSeqRef (nav (step e s)) = scanSeqRef (nav (handle e s)).
Proof. apply afterRender_seq. Qed.

Lemma step_cache e s : cache (nav (step e s)) = cache (nav (handle e s)).
Proof. apply afterRender_cache. Qed.

Lemma step_disk e s : disk (nav (step e s)) = disk (nav (handle e s)).
Proof. apply afterRender_disk. Qed.

Lemma ensureEffect_nav p s : nav (ensureEffect p s) = ensureEntry p (nav s).
Proof. unfold ensureEffect, ensureEntry. by destruct (cache (nav s) !! p). Qed.

Lemma ensureEffect_scans p s : scans (ensureEffect p s) = scans s.
Proof. unfold ensureEffect. by destruct (cache (nav s) !! p). Qed.

Lemma pressConfirm_seq s : scanSeqRef (nav (pressConfirm s)) = scanSeqRef (nav s).
Proof.
  simpl. unfold confirmKey, confirmDelete_begin.
  destruct (deletePrompt (nav s)) as [d|]; [|done]. by destruct (dp_status d).
Qed.

Lemma handle_seq_mono e s : scanSeqRef (nav s) ≤ scanSeqRef (nav (handle e s)).
Proof.
  destruct (owner e) as [t|] eqn:Ho.
  - rewrite (handle_owned _ _ _ Ho).
    destruct (scans s !! t) as [sc|]; [|lia].
    destruct (resume _ _ _ _) as [[st' pt]|] eqn:E; [|lia].
    simpl. apply resume_seq in E. lia.
  - destruct e; try discriminate; simpl.
    + rewrite triggerScan_seq. lia.
    + destruct (removals s !! k) as [[r|]|]; try lia.
      rewrite confirmDelete_done_seq. simpl. lia.
    + destruct (removals s !! k) as [[r|]|]; simpl; lia.
    + pose proof (pressConfirm_seq s) as H. simpl in H. lia.
    + unfold cancelKey. case_match; simpl; lia.
    + rewrite ensureEffect_nav. unfold ensureEntry.
      destruct (_ !! _); simpl; lia.
    + destruct (listings s !! k) as [[q|]|]; simpl; lia.
    + unfold hydrateFromPersistence. destruct (bool_decide _); simpl; lia.
Qed.

Lemma step_seq_mono e s : scanSeqRef (nav s) ≤ scanSeqRef (nav (step e s)).
Proof. rewrite step_seq. apply handle_seq_mono. Qed.

Lemma run_seq_mono tr s : scanSeqRef (nav s) ≤ scanSeqRef (nav (run tr s)).
Proof.
  revert s. induction tr as [|e tr IH]; intros s; simpl; [lia|].
  pose proof (step_seq_mono e s). pose proof (IH (step e s)).
  unfold run in *. lia.
Qed.

(** An event of a superseded scan, seen from the whole system. *)
Lemma handle_stale_inert e t s :
  owner e = Some t → scanSeqRef (nav s) ≠ t → is_failure e = false →
  nav (handle e s) = nav s.
Proof.
  intros Ho Hne Hf. rewrite (handle_owned _ _ _ Ho).
  destruct (scans s !! t) as [sc|]; [|done].
  destruct (resume _ _ _ _) as [[st' pt]|] eqn:E; [|done].
  simpl. by eapply resume_stale_inert.
Qed.

Lemma step_stale_inert e t s :
  owner e = Some t → scanSeqRef (nav s) ≠ t → is_failure e = false →
  nav (step e s) = nav s.
Proof.
  intros Ho Hne Hf. pose proof (handle_stale_inert e t s Ho Hne Hf) as H.
  unfold step. by rewrite afterRender_same.
Qed.

Lemma step_stale_dirs e t s q :
  owner e = Some t → scanSeqRef (nav s) ≠ t →
  dirs <$> (cache (nav (step e s)) !! q) = dirs <$> (cache (nav s) !! q).
Proof.
  intros Ho Hne. rewrite step_cache, (handle_owned _ _ _ Ho).
  destruct (scans s !! t) as [sc|]; [|done].
  destruct (resume _ _ _ _) as [[st' pt]|] eqn:E; [|done].
  simpl. by eapply resume_stale_dirs.
Qed.

End TokenFacts.

(** ** What a call of [triggerScan] and a pool completion do *)

Section CoordinatorFacts.

Implicit Types (st : Nav) (s : Sys) (t : Z) (e : Event).

Lemma afterListing_fresh t alpha now st :
  scanSeqRef st = t →
  ∃ ts, (afterListing t alpha now st).2 = AtPool (spawnWorkers alpha) ts.
Proof.
  intros Ht. unfold afterListing.
  destruct (Z.eqb_spec (scanSeqRef st) t); [|done]. simpl.
  destruct (progressCallback _ _ _ _ _) as [st' ts]. by exists ts.
Qed.

Lemma triggerScan_cache seen p force now s :
  cache (nav (triggerScan seen p force now s))
  = markScanning p force (cache (nav s)).
Proof.
  unfold triggerScan. destruct (cachedAlpha _); [|done].
  destruct (afterListing _ _ _ _) as [st' pt] eqn:E. simpl.
  change st' with (st', pt).1. rewrite <- E.
  by rewrite afterListing_cache.
Qed.

(** The call leaves a scan in flight under the fresh token: suspended
    on the listing, or with its workers already measuring. *)
Lemma triggerScan_parks seen p force now s :
  ∃ pt,
    scans (triggerScan seen p force now s)
    = <[scanSeqRef (nav s) + 1 := {| scan_path := p; at_point := pt |}]> (scans s)
    ∧ ((cachedAlpha (seen !! p) = None ∧ pt = AtList)
       ∨ ∃ alpha ts, cachedAlpha (seen !! p) = Some alpha
                     ∧ pt = AtPool (spawnWorkers alpha) ts).
Proof.
  unfold triggerScan. destruct (cachedAlpha _) as [alpha|] eqn:Ha.
  - destruct (afterListing _ _ _ _) as [st' pt] eqn:E.
    destruct (afterListing_fresh (scanSeqRef (nav s) + 1) alpha now
                (setCache (markScanning p force) (bumpScanSeq (nav s))))
      as [ts Hts]; [done|].
    simpl in E. rewrite E in Hts. simpl in Hts. subst pt.
    eexists. split; [done|]. right. by exists alpha, ts.
  - eexists. split; [done|]. by left.
Qed.

(** In the two cases of the guards of lines 187-188 the updater returns
    [prev]. *)
Lemma markScanning_guarded p force (c : gmap string DirCacheEntry) ent :
  c !! p = Some ent →
  status ent = scanning ∨ (force = false ∧ status ent = scanned) →
  markScanning p force c = c.
Proof.
  intros Hp Hg. unfold markScanning. rewrite Hp.
  destruct Hg as [->|[-> ->]]; done.
Qed.



(** Pool completion under the latest token: the commit of lines
    210-221. *)
Lemma join_commits s t sc pl ts now nowSave w ent :
  scans s !! t = Some sc → at_point sc = AtPool pl ts → workers pl = [] →
  scanSeqRef (nav s) = t → cache (nav s) !! scan_path sc = Some ent →
  cache (nav (step (Joined t now nowSave w) s))
  = <[scan_path sc :=
        set_scan_result (take TOP_N (sort_desc (results pl))) now ent]>
      (cache (nav s)).
Proof.
  intros Hsc Hpt Hw Ht Hent.
  rewrite step_cache, (handle_owned _ t) by done. rewrite Hsc.
  unfold resume. rewrite Hpt, Hw.
  unfold afterMeasuring.
  destruct (Z.eqb_spec (scanSeqRef (nav s)) t); [|done]. simpl.
  rewrite persist_cache. simpl. unfold commitScan. by rewrite Hent.
Qed.

Lemma park_issued t p pt st s :
  tokens_issued s → scanSeqRef (nav s) ≤ scanSeqRef st →
  t ≤ scanSeqRef st → tokens_issued (park t p pt st s).
Proof.
  intros Hs Hle Ht t' sc'. unfold park. simpl.
  destruct (decide (t = t')) as [->|Hne].
  - rewrite lookup_insert_eq. intros _. done.
  - rewrite lookup_insert_ne by done. intros H. apply Hs in H. lia.
Qed.

Lemma triggerScan_issued seen p force now s :
  tokens_issued s → tokens_issued (triggerScan seen p force now s).
Proof.
  intros Hs t sc.
  destruct (triggerScan_parks seen p force now s) as (pt & -> & _).
  rewrite triggerScan_seq.
  destruct (decide (scanSeqRef (nav s) + 1 = t)) as [<-|Hne].
  - intros _. lia.
  - rewrite lookup_insert_ne by done. intros H. apply Hs in H. lia.
Qed.

(** The invariant looks at the table of scans and at the counter. *)
Lemma tokens_issued_cells s s' :
  scans s' = scans s → scanSeqRef (nav s') = scanSeqRef (nav s) →
  tokens_issued s → tokens_issued s'.
Proof. intros Hsc Hseq Hs t sc. rewrite Hsc, Hseq. apply Hs. Qed.

Lemma handle_issued e s : tokens_issued s → tokens_issued (handle e s).
Proof.
  intros Hs. destruct (owner e) as [t|] eqn:Ho.
  - rewrite (handle_owned _ _ _ Ho).
    destruct (scans s !! t) as [sc|] eqn:Hsc; [|done].
    destruct (resume _ _ _ _) as [[st' pt]|] eqn:E; [|done].
    apply resume_seq in E. apply Hs in Hsc.
    apply park_issued; [done|lia|lia].
  - destruct e; try discriminate; simpl.
    + by apply triggerScan_issued.
    + destruct (removals s !! k) as [[r|]|]; try done.
      unfold confirmDelete_done. apply triggerScan_issued.
      intros t sc. simpl. intros H. apply Hs in H.
      destruct (bool_decide _); [|done]. by destruct (_ && _).
    + by destruct (removals s !! k) as [[r|]|].
    + revert Hs. apply tokens_issued_cells; [done|apply pressConfirm_seq].
    + intros t sc. simpl. intros H. apply Hs in H.
      unfold cancelKey. by case_match.
    + revert Hs. apply tokens_issued_cells; [apply ensureEffect_scans|].
      rewrite ensureEffect_nav. unfold ensureEntry. by destruct (_ !! _).
    + by destruct (listings s !! k) as [[q|]|].
    + intros t sc. simpl. intros H. apply Hs in H.
      unfold hydrateFromPersistence. by destruct (bool_decide _).
Qed.

Lemma step_issued e s : tokens_issued s → tokens_issued (step e s).
Proof.
  intros Hs. apply (tokens_issued_cells (handle e s));
    [apply step_scans|apply step_seq|by apply handle_issued].
Qed.

Lemma run_issued tr s : tokens_issued s → tokens_issued (run tr s).
Proof.
  revert s. induction tr as [|e tr IH]; intros s Hs; [done|].
  simpl. apply IH. by apply step_issued.
Qed.

(** A scan in flight keeps its path, whatever else happens. *)
Lemma step_keeps_path e s t sc :
  tokens_issued s → scans s !! t = Some sc →
  ∃ sc', scans (step e s) !! t = Some sc' ∧ scan_path sc' = scan_path sc.
Proof.
  intros Hs Hsc. pose proof (Hs _ _ Hsc) as Hle. rewrite step_scans.
  destruct (owner e) as [t'|] eqn:Ho.
  - rewrite (handle_owned _ _ _ Ho).
    destruct (scans s !! t') as [sc0|] eqn:Hsc0; [|by exists sc].
    destruct (resume _ _ _ _) as [[st' pt]|]; [|by exists sc].
    unfold park. simpl. destruct (decide (t' = t)) as [->|Hne].
    + rewrite lookup_insert_eq. eexists. split; [done|]. simpl. congruence.
    + rewrite lookup_insert_ne by done. by exists sc.
  - destruct e; try discriminate; simpl; try by exists sc.
    + destruct (triggerScan_parks (cache (nav s)) p force now s)
        as (pt & -> & _).
      rewrite lookup_insert_ne by lia. by exists sc.
    + destruct (removals s !! k) as [[r|]|]; try by exists sc.
      unfold confirmDelete_done.
      match goal with |- context [triggerScan ?a ?b ?c ?d ?x] =>
        destruct (triggerScan_parks a b c d x) as (pt & -> & _) end.
      simpl. rewrite lookup_insert_ne; [by exists sc|].
      destruct (bool_decide _); [destruct (_ && _)|]; simpl; lia.
    + destruct (removals s !! k) as [[r|]|]; by exists sc.
    + rewrite ensureEffect_scans. by exists sc.
    + destruct (listings s !! k) as [[q|]|]; by exists sc.
Qed.

Lemma run_keeps_path tr s t sc :
  tokens_issued s → scans s !! t = Some sc →
  ∃ sc', scans (run tr s) !! t = Some sc' ∧ scan_path sc' = scan_path sc.
Proof.
  revert s sc. induction tr as [|e tr IH]; intros s sc Hs Hsc.
  - by exists sc.
  - destruct (step_keeps_path e s t sc Hs Hsc) as (sc1 & H1 & Hp1).
    destruct (IH (step e s) sc1 (step_issued e s Hs) H1) as (sc2 & H2 & Hp2).
    exists sc2. split; [done|]. congruence.
Qed.

End CoordinatorFacts.

(** ** Pools of the scans in flight *)

Section PoolsInFlight.

Implicit Types (st : Nav) (s : Sys) (t : Z) (e : Event).

Lemma pool_reach_dirs ds pl : pool_reach ds pl → pool_dirs pl = ds.
Proof. intros H. by apply pool_reach_ok in H as ((? & _) & _). Qed.

Lemma spawnWorkers_reached alpha :
  pool_reach (pool_dirs (spawnWorkers alpha)) (spawnWorkers alpha).
Proof.
  rewrite (pool_reach_dirs alpha (spawnWorkers alpha)); constructor.
Qed.

Lemma resumeWorker_pool t w kbv now pl ts st :
  (resumeWorker t w kbv now pl ts st).1.2
  = pull (pushResult w kbv (dropWorker (w_i w) pl)).
Proof.
  unfold resumeWorker. by destruct (progressCallback _ _ _ _ _).
Qed.

(** A resumed scan that ends up waiting on its pool holds a reached
    pool. *)
Lemma resume_pool_reached t sc e st st' pl' ts' :
  (∀ pl ts, at_point sc = AtPool pl ts → pool_reach (pool_dirs pl) pl) →
  resume t sc e st = Some (st', AtPool pl' ts') →
  pool_reach (pool_dirs pl') pl'.
Proof.
  intros Hsc. unfold resume.
  destruct e, (at_point sc) as [|pl ts|pl ts| |] eqn:Hpt; try done; intros H.
  - apply (inj Some) in H. unfold afterListing in H.
    destruct (negb _); [done|].
    destruct (progressCallback _ _ _ _ _). simplify_eq.
    apply spawnWorkers_reached.
  - destruct (findWorker i pl) as [w|] eqn:Hw; [|done].
    pose proof (resumeWorker_pool t w kbv now pl ts st) as Hp.
    destruct (resumeWorker _ _ _ _ _ _ _) as [[st1 pl1] ts1].
    simpl in Hp. simplify_eq.
    pose proof (Hsc pl ts eq_refl) as Hr.
    pose proof (pool_resumed _ _ _ _ kbv Hr Hw) as Hr'.
    by rewrite (pool_reach_dirs _ _ Hr').
  - destruct (findWorker i pl) as [w|]; [|done].
    by destruct (resumeWorker _ _ _ _ _ _ _) as [[st1 pl1] ts1].
  - by destruct (findWorker i pl).
  - by destruct (findWorker i pl).
  - destruct (workers pl); [|done]. apply (inj Some) in H.
    unfold afterMeasuring in H. by destruct (negb _).
Qed.

Lemma triggerScan_pools_reached seen p force now s :
  pools_reached s → pools_reached (triggerScan seen p force now s).
Proof.
  intros Hs t sc pl ts.
  destruct (triggerScan_parks seen p force now s) as (pt & -> & Hpt).
  destruct (decide (scanSeqRef (nav s) + 1 = t)) as [<-|Hne].
  - rewrite lookup_insert_eq. intros [= <-]. simpl. intros ->.
    destruct Hpt as [[_ ?]|(alpha & ts' & _ & ?)]; simplify_eq.
    apply spawnWorkers_reached.
  - rewrite lookup_insert_ne by done. apply Hs.
Qed.

Lemma step_pools_reached e s : pools_reached s → pools_reached (step e s).
Proof.
  intros Hs. unfold pools_reached. rewrite step_scans.
  change (pools_reached (handle e s)).
  destruct (owner e) as [t|] eqn:Ho.
  - rewrite (handle_owned _ _ _ Ho).
    destruct (scans s !! t) as [sc|] eqn:Hsc; [|done].
    destruct (resume _ _ _ _) as [[st' pt]|] eqn:E; [|done].
    intros t' sc' pl ts. unfold park. simpl.
    destruct (decide (t = t')) as [<-|Hne].
    + rewrite lookup_insert_eq. intros [= <-]. simpl. intros ->.
      eapply resume_pool_reached; [|exact E].
      intros pl0 ts0 Hpt0. by eapply (Hs t sc).
    + rewrite lookup_insert_ne by done. apply Hs.
  - destruct e; try discriminate; simpl; try done.
    + by apply triggerScan_pools_reached.
    + destruct (removals s !! k) as [[r|]|]; try done.
      unfold confirmDelete_done. by apply triggerScan_pools_reached.
    + by destruct (removals s !! k) as [[r|]|].
    + unfold pools_reached. by rewrite ensureEffect_scans.
    + by destruct (listings s !! k) as [[q|]|].
Qed.

Lemma run_pools_reached tr s : pools_reached s → pools_reached (run tr s).
Proof.
  revert s. induction tr as [|e tr IH]; intros s Hs; [done|].
  simpl. apply IH. by apply step_pools_reached.
Qed.

(** In a system that started without scans, whatever has happened since:
    a scan whose workers have all returned has measured each child of
    its list once. *)
Lemma completed_scan_measured_each_child_once tr s0 t sc pl ts :
  scans s0 = ∅ →
  scans (run tr s0) !! t = Some sc → at_point sc = AtPool pl ts →
  workers pl = [] →
  path <$> results pl ≡ₚ pool_dirs pl.
Proof.
  intros H0 Hsc Hpt Hw.
  apply pool_measures_each_child_once; [|done].
  assert (Hinit : pools_reached s0).
  { intros t' sc' pl' ts' H. by rewrite H0, lookup_empty in H. }
  exact (run_pools_reached tr s0 Hinit t sc pl ts Hsc Hpt).
Qed.

End PoolsInFlight.

(** ** Supersession of scans *)

(** C1.  A scan of [p] takes token [T1]; after any events [tr1], a forced
    rescan of [p] takes token [T2]; then any events [tr2] happen.  From
    there on every continuation [e] of the first scan other than its
    [catch] block leaves the whole state, the cache included, as it is;
    no continuation of the first scan at all changes the sized children
    of any entry; and the rescan, when its workers have returned while
    its token is still the latest, commits its own sorted results to the
    entry of [p]. *)
Theorem C1_superseded_scan_never_commits
    (s : Sys) (p : string) (force1 : bool) (now1 now2 : Z)
    (tr1 tr2 : list Event) (e : Event) :
  let s1 := step (Trigger p force1 now1) s in
  let T1 := scanSeqRef (nav s1) in
  let s2 := step (Trigger p true now2) (run tr1 s1) in
  let T2 := scanSeqRef (nav s2) in
  let s3 := run tr2 s2 in
  tokens_issued s →
  owner e = Some T1 →
  T1 < T2
  ∧ (is_failure e = false → nav (step e s3) = nav s3)
  ∧ (∀ q, dirs <$> (cache (nav (step e s3)) !! q)
          = dirs <$> (cache (nav s3) !! q))
  ∧ (∀ sc pl ts now nowSave w ent,
       scans s3 !! T2 = Some sc → at_point sc = AtPool pl ts →
       workers pl = [] → scanSeqRef (nav s3) = T2 →
       cache (nav s3) !! p = Some ent →
       cache (nav (step (Joined T2 now nowSave w) s3)) !! p
       = Some (set_scan_result (take TOP_N (sort_desc (results pl))) now ent)).
Proof.
  intros s1 T1 s2 T2 s3 Hs Ho.
  assert (HT : T1 < T2).
  { subst T2 s2. rewrite step_seq. simpl. rewrite triggerScan_seq.
    pose proof (run_seq_mono tr1 s1). fold T1 in H. lia. }
  assert (Hstale : scanSeqRef (nav s3) ≠ T1).
  { pose proof (run_seq_mono tr2 s2). fold T2 s3 in H. lia. }
  split; [done|]. split; [|split].
  - intros Hf. by apply (step_stale_inert e T1).
  - intros q. by apply (step_stale_dirs e T1).
  - intros sc pl ts now nowSave w ent Hsc Hpt Hw Hseq Hent.
    assert (Hi2 : tokens_issued s2).
    { apply step_issued, run_issued, step_issued, Hs. }
    assert (Hp : scan_path sc = p).
    { destruct (triggerScan_parks (cache (nav (run tr1 s1))) p true now2
                  (run tr1 s1)) as (pt & Hpark & _).
      assert (H2 : scans s2 !! T2
                   = Some {| scan_path := p; at_point := pt |}).
      { subst T2 s2. rewrite step_scans, step_seq. simpl.
        rewrite Hpark, triggerScan_seq. by rewrite lookup_insert_eq. }
      destruct (run_keeps_path tr2 s2 T2 _ Hi2 H2) as (sc' & H3 & Hp').
      fold s3 in H3. rewrite Hsc in H3. by simplify_eq. }
    rewrite <- Hp in Hent |- *.
    rewrite (join_commits s3 T2 sc pl ts now nowSave w ent) by done.
    by rewrite lookup_insert_eq.
Qed.

(** C10.  [triggerScan] adds one to the single counter whatever [p],
    [force] and the cache are, also where the guards of lines 187-188 keep
    the entry as it is.  After the call, and after any further events
    [tr], a continuation [e] other than the [catch] block of any scan
    whose token [t] was issued before the call leaves the state (cache,
    progress and displayed size) as it is. *)
Theorem C10_every_trigger_supersedes_earlier_scans
    (s : Sys) (seen : gmap string DirCacheEntry) (p : string) (force : bool)
    (now : Z) (tr : list Event) (t : Z) (e : Event) :
  let s1 := triggerScan seen p force now s in
  t ≤ scanSeqRef (nav s) → owner e = Some t → is_failure e = false →
  scanSeqRef (nav s1) = scanSeqRef (nav s) + 1
  ∧ nav (step e (run tr s1)) = nav (run tr s1).
Proof.
  intros s1 Ht Ho Hf.
  assert (Hseq : scanSeqRef (nav s1) = scanSeqRef (nav s) + 1)
    by apply triggerScan_seq.
  split; [done|].
  apply (step_stale_inert e t); [done| |done].
  pose proof (run_seq_mono tr s1). lia.
Qed.

(** C2.  The [catch] block of lines 226-235 does not look at the token:
    when a measurement of scan [t] is rejected, the entry of the scan's
    path becomes [unscanned] with the failure message, also when [t] is
    no longer the latest token. *)
Theorem C2_stale_failure_handler_writes_cache
    (s : Sys) (t : Z) (sc : Scan) (pl : Pool) (ts : Z) (i : nat) (w : Worker)
    (message : string) (ent : DirCacheEntry) :
  scans s !! t = Some sc → at_point sc = AtPool pl ts →
  findWorker i pl = Some w →
  cache (nav s) !! scan_path sc = Some ent →
  scanSeqRef (nav s) ≠ t →
  cache (nav (step (DuFailed t i message) s)) !! scan_path sc
  = Some (set_status_msg unscanned (Some ("Scan failed: " +:+ message)) ent).
Proof.
  intros Hsc Hpt Hw Hent Hne.
  rewrite step_cache, (handle_owned _ t) by done. rewrite Hsc.
  unfold resume. rewrite Hpt, Hw. simpl.
  rewrite finallyBlock_cache. unfold catchBlock, failScan. simpl.
  rewrite Hent. by rewrite lookup_insert_eq.
Qed.

(** C3.  When the workers of a scan have all returned, in whatever order
    they pushed their results, and the scan still holds the latest
    token, the list written to the entry is the first [TOP_N] elements
    of the results sorted by descending size: it is sorted and has at
    most [TOP_N] = 30 elements, and the entry is marked [scanned]. *)
Theorem C3_committed_children_sorted_top_n
    (s : Sys) (t : Z) (sc : Scan) (p : string) (pl : Pool)
    (ts now nowSave : Z) (writable : bool) (ent : DirCacheEntry) :
  scans s !! t = Some sc → scan_path sc = p → at_point sc = AtPool pl ts →
  workers pl = [] → scanSeqRef (nav s) = t → cache (nav s) !! p = Some ent →
  ∃ ent' l,
    cache (nav (step (Joined t now nowSave writable) s)) !! p = Some ent'
    ∧ status ent' = scanned
    ∧ dirs ent' = Some l
    ∧ l = take TOP_N (sort_desc (results pl))
    ∧ sorted_desc l
    ∧ (length l ≤ TOP_N)%nat
    ∧ TOP_N = 30%nat.
Proof.
  intros Hsc <- Hpt Hw Ht Hent.
  rewrite (join_commits s t sc pl ts now nowSave writable ent) by done.
  rewrite lookup_insert_eq.
  eexists _, _. split; [done|]. simpl.
  repeat split; [apply top_n_sorted | apply top_n_length].
Qed.

(** C4 (as amended).  When [triggerScan(p, force)] meets an entry that is
    [scanning], or is called without [force] on an entry that is
    [scanned], the cache is the same after the call as before, and the
    call has taken a fresh token.  A forced call on a [scanning] entry is
    not a no-op: it leaves a scan of [p] in flight under the fresh token,
    suspended on the listing or with its workers measuring, and when
    later the workers of that scan have returned and its token is still
    the latest, its results are committed to the entry of [p]. *)
Theorem C4_guarded_trigger_still_scans
    (seen : gmap string DirCacheEntry) (s : Sys) (p : string) (force : bool)
    (now : Z) (ent : DirCacheEntry) :
  let s' := triggerScan seen p force now s in
  let T := scanSeqRef (nav s') in
  cache (nav s) !! p = Some ent →
  status ent = scanning ∨ (force = false ∧ status ent = scanned) →
  cache (nav s') = cache (nav s)
  ∧ T = scanSeqRef (nav s) + 1
  ∧ (force = true →
       (∃ pt, scans s' !! T = Some {| scan_path := p; at_point := pt |}
              ∧ (pt = AtList ∨ ∃ alpha ts, pt = AtPool (spawnWorkers alpha) ts))
       ∧ (∀ s'' sc pl ts now' nowSave w ent',
            scans s'' !! T = Some sc → scan_path sc = p →
            at_point sc = AtPool pl ts → workers pl = [] →
            scanSeqRef (nav s'') = T → cache (nav s'') !! p = Some ent' →
            cache (nav (step (Joined T now' nowSave w) s'')) !! p
            = Some (set_scan_result (take TOP_N (sort_desc (results pl)))
                      now' ent'))).
Proof.
  intros s' T Hent Hg.
  assert (HT : T = scanSeqRef (nav s) + 1) by apply triggerScan_seq.
  split; [|split; [done|]].
  - subst s'. rewrite triggerScan_cache. by eapply markScanning_guarded.
  - intros _. split.
    + destruct (triggerScan_parks seen p force now s) as (pt & Hpark & Hpt).
      exists pt. fold s' in Hpark. rewrite Hpark, HT, lookup_insert_eq.
      split; [done|].
      destruct Hpt as [[_ ->]|(alpha & ts & _ & ->)]; [by left|right; eauto].
    + intros s'' sc pl ts now' nowSave w ent' Hsc <- Hpt Hw Hseq Hent'.
      rewrite (join_commits s'' T sc pl ts now' nowSave w ent') by done.
      by rewrite lookup_insert_eq.
Qed.

Lemma sampleSys_issued c : tokens_issued (sampleSys c).
Proof. intros t sc H. simpl in H. by rewrite lookup_empty in H. Qed.

(** Scenario 2 of the specification: the rescan (token 2) has committed
    its size 7; the late measurement of the first scan (token 1) and its
    pool completion then change nothing. *)
Lemma C1_witness_scenario2 :
  let s3 := run (rescanFinishes ++ [DuDone 1 0 99 2500])
              (step (Trigger "/r" true 2000)
                 (run [] (step (Trigger "/r" true 1000) (sampleSys oneChild)))) in
  nav (step (Joined 1 3000 3001 true) s3) = nav s3
  ∧ dirs <$> (cache (nav (step (Joined 1 3000 3001 true) s3)) !! "/r")
    = Some (Some [ {| kb := 7; path := "/r/a" |} ]).
Proof.
  intros s3.
  destruct (C1_superseded_scan_never_commits (sampleSys oneChild) "/r" true
              1000 2000 [] (rescanFinishes ++ [DuDone 1 0 99 2500])
              (Joined 1 3000 3001 true) (sampleSys_issued oneChild) eq_refl)
    as (_ & Hinert & Hdirs & _).
  split.
  - apply Hinert. reflexivity.
  - rewrite Hdirs. vm_compute. reflexivity.
Defined.

(** Scan 1 measures [/r]; an unforced trigger on the scanned entry [/q]
    takes token 2; the completion of scan 1 is then discarded. *)
Lemma C10_witness_other_path :
  let s := step (Trigger "/r" true 1000) (sampleSys twoPaths) in
  let s1 := triggerScan (cache (nav s)) "/q" false 1200 s in
  scanSeqRef (nav s1) = scanSeqRef (nav s) + 1
  ∧ nav (step (Joined 1 1600 1601 true) (run [DuDone 1 0 99 1500] s1))
    = nav (run [DuDone 1 0 99 1500] s1).
Proof.
  intros s s1.
  apply (C10_every_trigger_supersedes_earlier_scans s (cache (nav s)) "/q"
           false 1200 [DuDone 1 0 99 1500] 1 (Joined 1 1600 1601 true)).
  - vm_compute. discriminate.
  - reflexivity.
  - reflexivity.
Defined.

(** The failing input of C2: after the rescan has committed, the entry of
    [/r] is [scanned] under the latest token 2; the rejected measurement
    of scan 1 then turns it back to [unscanned] with the failure
    message. *)
Lemma C2_witness_stale_failure :
  let s := run staleFailureSetup
             (sampleSys {[ "/r" := listedEntry "/r" sevenChildren ]}) in
  scanSeqRef (nav s) = 2
  ∧ (λ x, (status x, msg x)) <$> (cache (nav s) !! "/r")
    = Some (scanned, None)
  ∧ (λ x, (status x, msg x)) <$> (cache (nav (step staleFailure s)) !! "/r")
    = Some (unscanned,
            Some "Scan failed: Cannot read properties of undefined (reading 'on')").
Proof.
  intros s. split; [reflexivity|]. split; [reflexivity|].
  assert (Hsc : scans s !! 1
                = Some {| scan_path := "/r";
                          at_point := AtPool (pull (pushResult
                            {| w_i := 0; w_d := "/r/a" |} 10
                            (dropWorker 0 (spawnWorkers sevenChildren)))) 1000 |})
    by (vm_compute; reflexivity).
  pose proof (C2_stale_failure_handler_writes_cache s 1 _ _ _ 6
                {| w_i := 6; w_d := "/r/g" |}
                "Cannot read properties of undefined (reading 'on')"
                (set_scan_result
                   (take TOP_N (sort_desc
                      [ {| kb := 10; path := "/r/a" |}; {| kb := 20; path := "/r/b" |};
                        {| kb := 30; path := "/r/c" |}; {| kb := 40; path := "/r/d" |};
                        {| kb := 50; path := "/r/e" |}; {| kb := 60; path := "/r/f" |};
                        {| kb := 70; path := "/r/g" |} ])) 2080
                   (set_status_msg scanning (Some "Scanning…")
                      (listedEntry "/r" sevenChildren)))
                Hsc eq_refl eq_refl eq_refl) as H.
  change (scan_path _) with "/r" in H.
  unfold staleFailure. rewrite H; [reflexivity|].
  vm_compute. discriminate.
Defined.

(** Scenario 1 of the specification: sizes 10, 50, 5, 200, 1 measured out
    of order are committed as 200, 50, 10, 5, 1. *)
Lemma C3_witness_scenario1 :
  let s := run scenario1_measured
             (sampleSys {[ "/r" := listedEntry "/r" fiveChildren ]}) in
  ∃ ent' l,
    cache (nav (step (Joined 1 1060 1061 true) s)) !! "/r" = Some ent'
    ∧ status ent' = scanned
    ∧ dirs ent' = Some l
    ∧ l = [ {| kb := 200; path := "/r/d" |}; {| kb := 50; path := "/r/b" |};
            {| kb := 10; path := "/r/a" |}; {| kb := 5; path := "/r/c" |};
            {| kb := 1; path := "/r/e" |} ]
    ∧ sorted_desc l
    ∧ (length l ≤ TOP_N)%nat.
Proof.
  intros s.
  set (pl := {| pool_dirs := fiveChildren; idx := 10;
                results := [ {| kb := 200; path := "/r/d" |};
                             {| kb := 10; path := "/r/a" |};
                             {| kb := 1; path := "/r/e" |};
                             {| kb := 5; path := "/r/c" |};
                             {| kb := 50; path := "/r/b" |} ];
                workers := [] |}).
  destruct (C3_committed_children_sorted_top_n s 1
              {| scan_path := "/r"; at_point := AtPool pl 1050 |} "/r" pl
              1050 1060 1061 true
              (set_status_msg scanning (Some "Scanning…")
                 (listedEntry "/r" fiveChildren)))
    as (ent' & l & H1 & H2 & H3 & H4 & H5 & H6 & _);
    try (vm_compute; reflexivity).
  exists ent', l. repeat split; done.
Defined.

(** C4 does not hold as stated.  An unforced trigger on the [scanned]
    entry [/r] leaves the cache as it is, yet a worker is measuring
    [/r/a] under token 1, and its size 9 later replaces the cached 5.  A
    forced trigger on the [scanning] entry of scenario 2 likewise leaves
    the cache as it is, and the size 7 it measures is committed. *)
Lemma C4_counterexample_guarded_trigger_scans :
  let s0 := sampleSys alreadyScanned in
  let s1 := step (Trigger "/r" false 1000) s0 in
  let s2 := run [DuDone 1 0 9 1010; Joined 1 1020 1021 true] s1 in
  let r1 := step (Trigger "/r" true 1000) (sampleSys oneChild) in
  let r2 := step (Trigger "/r" true 2000) r1 in
  let r3 := run rescanFinishes r2 in
  (status <$> (cache (nav s0) !! "/r") = Some scanned
   ∧ cache (nav s1) = cache (nav s0)
   ∧ at_point <$> (scans s1 !! 1)
     = Some (AtPool {| pool_dirs := ["/r/a"]; idx := 1; results := [];
                       workers := [ {| w_i := 0; w_d := "/r/a" |} ] |} 1000)
   ∧ dirs <$> (cache (nav s0) !! "/r")
     = Some (Some [ {| kb := 5; path := "/r/a" |} ])
   ∧ dirs <$> (cache (nav s2) !! "/r")
     = Some (Some [ {| kb := 9; path := "/r/a" |} ]))
  ∧ (status <$> (cache (nav r1) !! "/r") = Some scanning
     ∧ cache (nav r2) = cache (nav r1)
     ∧ dirs <$> (cache (nav r1) !! "/r") = Some None
     ∧ dirs <$> (cache (nav r3) !! "/r")
       = Some (Some [ {| kb := 7; path := "/r/a" |} ])).
Proof. vm_compute. repeat split; reflexivity. Qed.

(** The forced trigger on the [scanning] entry of scenario 2. *)
Lemma C4_witness_forced_on_scanning :
  let s := step (Trigger "/r" true 1000) (sampleSys oneChild) in
  let s' := triggerScan (cache (nav s)) "/r" true 2000 s in
  cache (nav s') = cache (nav s)
  ∧ scanSeqRef (nav s') = 2
  ∧ ∃ pt, scans s' !! 2 = Some {| scan_path := "/r"; at_point := pt |}
          ∧ (pt = AtList ∨ ∃ alpha ts, pt = AtPool (spawnWorkers alpha) ts).
Proof.
  intros s s'.
  destruct (C4_guarded_trigger_still_scans (cache (nav s)) s "/r" true 2000
              (set_status_msg scanning (Some "Scanning…")
                 (listedEntry "/r" ["/r/a"]))
              eq_refl (or_introl eq_refl))
    as (H1 & H2 & H3).
  split; [exact H1|]. split; [exact H2|]. exact (proj1 (H3 eq_refl)).
Defined.

(** ** Deletion *)

Section DeletionFacts.

Implicit Types (c : gmap string DirCacheEntry) (x q : string).





(** Entries other than the target and its parent are untouched. *)
Lemma removeFromCache_other x c q :
  q ≠ x → q ≠ dirname x → removeFromCache x c !! q = c !! q.
Proof.
  intros Hx Hp. unfold removeFromCache.
  destruct (delete x c !! dirname x) as [pe|].
  - rewrite lookup_insert_ne by done. by rewrite lookup_delete_ne.
  - by rewrite lookup_delete_ne.
Qed.





End DeletionFacts.




(** [path.dirname] on the shapes of path the navigator meets. *)
Example dirname_samples :
  dirname "/a/b" = "/a" ∧ dirname "/a" = "/" ∧ dirname "/" = "/"
  ∧ dirname "/a/b/" = "/a" ∧ dirname "a" = "." ∧ dirname "" = ".".
Proof. repeat split; reflexivity. Qed.

(** The machine of the deletion flow: the confirm key takes
    [ConfirmingDelete] to [Deleting], a failed removal takes it back with
    the error kept, the cancel key leads to [Browsing]. *)
Lemma deletion_modes (st : Nav) (d : DeletePrompt) (message : string) :
  deletePrompt st = Some d → dp_status d = confirm →
  mode st = ConfirmingDelete
  ∧ mode (confirmKey st) = Deleting
  ∧ mode (confirmDelete_failed message (confirmKey st)) = ConfirmingDelete
  ∧ (dp_error <$> deletePrompt (confirmDelete_failed message (confirmKey st)))
    = Some (Some message)
  ∧ mode (cancelKey st) = Browsing.
Proof.
  intros Hd Hs. unfold mode, confirmKey, cancelKey, confirmDelete_failed,
    confirmDelete_begin. rewrite Hd, Hs. simpl. by rewrite Hd.
Qed.








(** ** Cursor and viewport *)

Lemma clampIndex_range (len idx : Z) :
  0 < len → 0 ≤ clampIndex len idx ≤ len - 1.
Proof. intros H. unfold clampIndex. destruct (Z.eqb_spec len 0); lia. Qed.




(** C7 does not hold as stated.  With 3 rows in a window of 5, row 2
    selected and the offset at 1, the rule of the specification leaves
    the offset at 1; [adjustViewport] returns 0. *)
Lemma C7_counterexample_short_list :
  scrollRule 2 1 5 = 1 ∧ adjustViewport 3 2 1 5 = 0.
Proof. split; reflexivity. Qed.

(** C7 (as amended).  When the list fits into the window
    ([len <= viewSize]) the new offset is 0.  Otherwise it is the one of
    the scroll rule; then, for a window of at least one row, the selected
    row is visible at the new offset, and no offset at which it is
    visible is nearer to the old one. *)
Theorem C7_viewport_rule (len selected currentOffset viewSize : Z) :
  let off' := adjustViewport len selected currentOffset viewSize in
  (len ≤ viewSize → off' = 0)
  ∧ (viewSize < len →
       off' = scrollRule selected currentOffset viewSize
       ∧ (0 < viewSize →
            off' ≤ selected < off' + viewSize
            ∧ ∀ o, o ≤ selected < o + viewSize →
                   Z.abs (off' - currentOffset) ≤ Z.abs (o - currentOffset))).
Proof.
  intros off'. subst off'. unfold adjustViewport, scrollRule.
  destruct (Z.leb_spec len viewSize) as [Hle|Hgt].
  - split; [done|]. intros; lia.
  - split; [intros; lia|]. intros _. split; [done|]. intros Hv.
    destruct (Z.ltb_spec selected currentOffset).
    + split; [lia|]. intros o Ho. lia.
    + destruct (Z.geb_spec selected (currentOffset + viewSize)).
      * split; [lia|]. intros o Ho. lia.
      * split; [lia|]. intros o Ho. lia.
Qed.

(** ** Persistence *)

Section PersistFacts.

Implicit Types (data : gmap string PersistEntry) (file : CacheFile).

Lemma obj_set_lookup data k v :
  k ≠ "__proto__" → obj_set data k v !! k = Some v.
Proof.
  intros Hk. unfold obj_set. rewrite (bool_decide_false _ Hk). simpl.
  apply lookup_insert_eq.
Qed.


(** The one key that is not stored: [__proto__] on an object without an
    own property of that name. *)
Lemma obj_set_proto data v :
  data !! "__proto__" = None → obj_set data "__proto__" v = data.
Proof.
  intros H. unfold obj_set.
  rewrite bool_decide_true by done. by rewrite bool_decide_true.
Qed.


Lemma absolute_not_index rest :
  array_index (String "/" rest) = None ∧ String "/" rest ≠ "length".
Proof. split; [|discriminate]. unfold array_index. simpl. by destruct rest. Qed.

Lemma loadCacheFromDisk_lookup data q :
  loadCacheFromDisk (Stored data) !! q = hydrated q <$> (data !! q).
Proof.
  simpl. rewrite map_lookup_imap. by destruct (data !! q).
Qed.

(** The save on a missing or unparsable file, or on an object. *)
Lemma saveCacheToDisk_object file p entry :
  well_formed file →
  saveCacheToDisk p entry true file
  = Some (Stored (obj_set (match file with Stored d => d | _ => ∅ end) p entry)).
Proof. by destruct file. Qed.

(** On an array the save keeps the array, and changes an element only
    under a key that is an index. *)
Lemma saveCacheToDisk_array elems p entry :
  array_index p = None → p ≠ "length" →
  saveCacheToDisk p entry true (StoredArray elems) = Some (StoredArray elems).
Proof.
  intros Hi Hl. unfold saveCacheToDisk, assigned.
  destruct (String.eqb_spec p "length"); [done|]. by rewrite Hi.
Qed.

End PersistFacts.

(** ** Who writes the listing of an entry *)

Section ListingFacts.

Implicit Types (c : gmap string DirCacheEntry) (st : Nav) (s : Sys).

























End ListingFacts.




(** The write-through of a scan on a file of that kind. *)
Lemma persist_disk p entry st :
  well_formed (disk st) →
  disk (persist p entry true st)
  = Stored (obj_set (match disk st with Stored d => d | _ => ∅ end) p entry).
Proof.
  intros Hwf. unfold persist. by rewrite saveCacheToDisk_object.
Qed.

(** The state after the handler of a pool completion under the latest
    token. *)
Lemma join_state s t sc pl ts now nowSave w :
  scans s !! t = Some sc → at_point sc = AtPool pl ts → workers pl = [] →
  scanSeqRef (nav s) = t →
  nav (handle (Joined t now nowSave w) s)
  = persist (scan_path sc)
      {| p_lastScan := nowSave;
         p_dirs := take TOP_N (sort_desc (results pl)); p_files := [] |} w
      (setCache (commitScan (scan_path sc) (sort_desc (results pl)) now) (nav s)).
Proof.
  intros Hsc Hpt Hw Ht.
  rewrite (handle_owned _ t) by done. rewrite Hsc.
  unfold resume. rewrite Hpt, Hw. unfold afterMeasuring.
  by destruct (Z.eqb_spec (scanSeqRef (nav s)) t).
Qed.

(** The write-through of a committed scan survives a restart: what the
    next [loadCacheFromDisk] finds for the path is the list the cache
    holds. *)
Lemma scan_result_survives_restart
    (s : Sys) (t : Z) (sc : Scan) (pl : Pool) (ts now nowSave : Z)
    (ent : DirCacheEntry) :
  scans s !! t = Some sc → at_point sc = AtPool pl ts → workers pl = [] →
  scanSeqRef (nav s) = t → cache (nav s) !! scan_path sc = Some ent →
  scan_path sc ≠ "__proto__" → well_formed (disk (nav s)) →
  let s' := step (Joined t now nowSave true) s in
  dirs <$> (loadCacheFromDisk (disk (nav s')) !! scan_path sc)
  = dirs <$> (cache (nav s') !! scan_path sc).
Proof.
  intros Hsc Hpt Hw Ht Hent Hp Hwf s'. subst s'.
  rewrite step_disk, step_cache.
  rewrite (join_state s t sc pl ts now nowSave true) by done.
  rewrite persist_cache, persist_disk by done.
  rewrite loadCacheFromDisk_lookup, obj_set_lookup by done.
  simpl. unfold commitScan. rewrite Hent. by rewrite lookup_insert_eq.
Qed.

(** ** Start-up *)

(** C9 does not hold as stated.  Started with no subcommand and no
    terminal on standard input, the entry point renders the report UI
    [App]; it does not end in a start-up error. *)
Lemma C9_counterexample_no_tty_renders_app :
  legacy (head []) = false ∧ entry [] false = Render App.
Proof. split; reflexivity. Qed.

(** C9 (as amended).  Without a terminal on standard input the entry
    point renders [App], the non-interactive UI, whatever the arguments
    are; the navigator is rendered exactly when no report subcommand is
    given and standard input is a terminal; no start leads to a start-up
    error. *)
Theorem C9_no_tty_falls_back_to_app (argv : list string) (stdinIsTTY : bool) :
  entry argv false = Render App
  ∧ (entry argv stdinIsTTY = Render Navigator
     ↔ legacy (head argv) = false ∧ stdinIsTTY = true)
  ∧ (∀ code, entry argv stdinIsTTY ≠ StartupError code).
Proof.
  unfold entry. split; [|split].
  - by rewrite orb_true_r.
  - destruct (legacy (head argv)), stdinIsTTY; simpl; split; try done;
      intros [??]; done.
  - done.
Qed.
